(** * prospect: spectral coaddition and band stitching

    A shallow embedding of the numeric core of [prospect]:

    - [_coadd] and [coadd_targets] of [py/prospect/utils_specviewer.py];
    - the grid stitching at the end of [create_model] and the noise columns
      of [make_cds_spectra] and [make_cds_coaddcam_spec] of
      [py/prospect/plotframes.py].

    Numbers.  A numpy float is modelled by [float64]: a rational, or one
    of the three special values of IEEE arithmetic.  [fadd], [fmul] and
    [fdiv] are the operations without rounding: on two rationals the sum,
    the product and the quotient, and an infinity or NaN where IEEE
    arithmetic gives one (a division by zero among them).  Module
    [Binary64] rounds the results to the nearest double, ties to even, and
    to an infinity on overflow: these are the operations of numpy's
    float64.  [_coadd_with] takes the arithmetic as an argument and runs
    with either.  The sign of zero is not modelled.

    Arrays.  A 1-D array is the list of its elements, a 2-D array the list of
    its rows, a 3-D array the list of its 2-D slices.  Arrays that the code
    shares and updates in place live in a heap of cells addressed by
    location (module [Heap]); functions that only build new arrays from their
    arguments are pure. *)

From stdpp Require Import base tactics option list numbers strings gmap sorting.
From Stdlib Require Import QArith Qcanon.

#[local] Close Scope Qc_scope.
#[local] Close Scope Q_scope.
#[local] Open Scope nat_scope.

(** ** Python exceptions and the result of a fallible computation *)

Inductive exn : Type :=
| IndexError | KeyError | ValueError | TypeError | AssertionError
| RuntimeError.

Inductive result (A : Type) : Type :=
| Ok (a : A)
| Err (e : exn).
Arguments Ok {A} a.
Arguments Err {A} e.

#[export] Instance exn_eq_dec : EqDecision exn.
Proof. solve_decision. Defined.
#[export] Instance result_eq_dec `{EqDecision A} : EqDecision (result A).
Proof. solve_decision. Defined.

#[export] Instance result_ret : MRet result := λ A a, Ok a.
#[export] Instance result_bind : MBind result := λ A B f m,
  match m with Ok a => f a | Err e => Err e end.

Definition is_Ok {A} (r : result A) : Prop := ∃ a, r = Ok a.
Definition is_Err {A} (r : result A) : Prop := ∃ e, r = Err e.

(** [for x in xs: s = body x s], stopping at the first exception. *)
Fixpoint for_ {X S : Type} (xs : list X) (body : X → S → result S) (s : S)
  : result S :=
  match xs with
  | [] => Ok s
  | x :: xs' => s' ← body x s; for_ xs' body s'
  end.

(** [a[i]] on a list: IndexError when out of range. *)
Definition getitem {A} (a : list A) (i : nat) : result A :=
  match a !! i with Some x => Ok x | None => Err IndexError end.

(** [a[-1]] *)
Definition getlast {A} (a : list A) : result A :=
  match last a with Some x => Ok x | None => Err IndexError end.

(** ** Floating-point values *)

Inductive float64 : Type :=
| Fin (q : Qc)
| PInf
| NInf
| NaN.

#[export] Instance float64_eq_dec : EqDecision float64.
Proof. solve_decision. Defined.

Definition zq (z : Z) : Qc := Q2Qc (inject_Z z).
Definition fz (z : Z) : float64 := Fin (zq z).
Definition f0 : float64 := Fin 0%Qc.
Definition f1 : float64 := Fin 1%Qc.

Definition inf (neg : bool) : float64 := if neg then NInf else PInf.

Definition Qc_neg (q : Qc) : bool := bool_decide (q < 0)%Qc.

Definition fadd (x y : float64) : float64 :=
  match x, y with
  | NaN, _ | _, NaN => NaN
  | Fin a, Fin b => Fin (a + b)%Qc
  | PInf, NInf | NInf, PInf => NaN
  | PInf, _ | _, PInf => PInf
  | NInf, _ | _, NInf => NInf
  end.

Definition fmul (x y : float64) : float64 :=
  match x, y with
  | NaN, _ | _, NaN => NaN
  | Fin a, Fin b => Fin (a * b)%Qc
  | Fin a, PInf | PInf, Fin a =>
      if decide (a = 0%Qc) then NaN else inf (Qc_neg a)
  | Fin a, NInf | NInf, Fin a =>
      if decide (a = 0%Qc) then NaN else inf (negb (Qc_neg a))
  | PInf, PInf | NInf, NInf => PInf
  | PInf, NInf | NInf, PInf => NInf
  end.

Definition fdiv (x y : float64) : float64 :=
  match x, y with
  | NaN, _ | _, NaN => NaN
  | Fin a, Fin b =>
      if decide (b = 0%Qc)
      then (if decide (a = 0%Qc) then NaN else inf (Qc_neg a))
      else Fin (a / b)%Qc
  | Fin _, (PInf | NInf) => f0
  | PInf, Fin b => inf (Qc_neg b)
  | NInf, Fin b => inf (negb (Qc_neg b))
  | (PInf | NInf), (PInf | NInf) => NaN
  end.

(** [x == y] *)
Definition feqb (x y : float64) : bool :=
  match x, y with
  | Fin a, Fin b => bool_decide (a = b)
  | PInf, PInf | NInf, NInf => true
  | _, _ => false
  end.

(** [x < y] *)
Definition fltb (x y : float64) : bool :=
  match x, y with
  | NaN, _ | _, NaN => false
  | Fin a, Fin b => bool_decide (a < b)%Qc
  | NInf, (Fin _ | PInf) => true
  | Fin _, PInf => true
  | _, _ => false
  end.

(** [x <= y] *)
Definition fleb (x y : float64) : bool :=
  match x, y with
  | NaN, _ | _, NaN => false
  | Fin a, Fin b => bool_decide (a <= b)%Qc
  | NInf, _ | _, PInf => true
  | _, _ => false
  end.

(** A bool or an int used in float arithmetic. *)
Definition of_bool (b : bool) : float64 := if b then f1 else f0.
Definition of_nat (n : nat) : float64 := fz (Z.of_nat n).

(** The sum the loops of the code build: start at zero, add in order. *)
Definition fsum (l : list float64) : float64 := foldl fadd f0 l.

(** ** The arithmetic of numpy's float64 *)

Module Binary64.
#[local] Open Scope Z_scope.

(** [m * 2^e] *)
Definition scale (m e : Z) : Qc :=
  if decide (0 ≤ e) then Q2Qc (inject_Z (m * 2 ^ e))
  else Q2Qc (Qmake m (Z.to_pos (2 ^ (- e)))).

(** [n / (d * 2^e)] as a fraction of two integers. *)
Definition scaled (n d e : Z) : Z * Z :=
  if decide (0 ≤ e) then (n, d * 2 ^ e) else (n * 2 ^ (- e), d).

(** The integer nearest to [n / d], the even one of two equally near. *)
Definition nearest_even (n d : Z) : Z :=
  let m := n `div` d in
  let r := n `mod` d in
  if decide (2 * r < d) then m
  else if decide (d < 2 * r) then m + 1
  else if Z.even m then m else m + 1.

(** The exponent [e] of the last place of a double near [n / d > 0]:
    [2^52 <= n / (d * 2^e) < 2^53] for a normal number, [-1074] for a
    subnormal one. *)
Definition ulp_exponent (n d : Z) : Z :=
  let e := Z.log2 n - Z.log2 d - 52 in
  let '(n', d') := scaled n d e in
  let e := if decide (n' < d' * 2 ^ 52) then e - 1 else e in
  Z.max e (-1074).

(** The double nearest to a rational, ties to even; an infinity from
    [2^1024 - 2^970] on. *)
Definition round (q : Qc) : float64 :=
  let n := Qnum q in
  let d := Zpos (Qden q) in
  if decide (n = 0) then f0
  else
    let a := Z.abs n in
    let e := ulp_exponent a d in
    let '(n', d') := scaled a d e in
    let m := nearest_even n' d' in
    if decide (2 ^ 1024 ≤ m * 2 ^ e) then inf (bool_decide (n < 0))
    else Fin (scale (Z.sgn n * m) e).

(** The result of an operation, rounded. *)
Definition rounded (x : float64) : float64 :=
  match x with Fin q => round q | _ => x end.

Definition add (x y : float64) : float64 := rounded (fadd x y).
Definition mul (x y : float64) : float64 := rounded (fmul x y).
Definition div (x y : float64) : float64 := rounded (fdiv x y).

(** The double written [n / d] in decimal, as Python reads it. *)
Definition double (n d : Z) : float64 := round (Q2Qc (Qmake n (Z.to_pos d))).

End Binary64.

(** An arithmetic: how two floats are added, multiplied and divided. *)
Record arith : Type := Arith {
  a_add : float64 → float64 → float64;
  a_mul : float64 → float64 → float64;
  a_div : float64 → float64 → float64;
}.

(** Without rounding. *)
Definition unrounded : arith := Arith fadd fmul fdiv.
(** As numpy computes on float64. *)
Definition binary64 : arith :=
  Arith Binary64.add Binary64.mul Binary64.div.

(** The sum of the loops in an arithmetic. *)
Definition asum (Ar : arith) (l : list float64) : float64 :=
  foldl (a_add Ar) f0 l.

(** ** numpy operations on arrays *)

Module NP.

Abbreviation array1 := (list float64).
Abbreviation array2 := (list (list float64)).
Abbreviation array3 := (list (list (list float64))).

Definition zeros (n : nat) : array1 := replicate n f0.
Definition ones (n : nat) : array1 := replicate n f1.
Definition zeros2 (shape : nat * nat) : array2 :=
  replicate shape.1 (zeros shape.2).
Definition zeros3 (shape : nat * nat * nat) : array3 :=
  replicate shape.1.1 (zeros2 (shape.1.2, shape.2)).

(** [a.shape] of a 2-D array: an array without rows is [[]] whatever its
    second dimension, which then reads as 0. *)
Definition shape2 {A} (a : list (list A)) : nat * nat :=
  (length a, length (default [] (head a))).

(** [a op b] on 1-D arrays: equal lengths, or one operand of length one
    is stretched; anything else is numpy's broadcast ValueError. *)
Definition broadcast (op : float64 → float64 → float64)
    (a b : array1) : result array1 :=
  if decide (length a = length b) then Ok (zip_with op a b)
  else match a, b with
       | [x], _ => Ok (op x <$> b)
       | _, [y] => Ok ((λ x, op x y) <$> a)
       | _, _ => Err ValueError
       end.

(** [a op= b] on 1-D arrays: the result keeps the shape of [a]. *)
Definition inplace (op : float64 → float64 → float64)
    (a b : array1) : result array1 :=
  if decide (length a = length b) then Ok (zip_with op a b)
  else match b with
       | [y] => Ok ((λ x, op x y) <$> a)
       | _ => Err ValueError
       end.

(** All rows through a fallible function, first exception wins. *)
Fixpoint rows {A B} (f : A → result B) (a : list A) : result (list B) :=
  match a with
  | [] => Ok []
  | x :: a' => y ← f x; ys ← rows f a'; Ok (y :: ys)
  end.

(** [a op b] with [a] 2-D and [b] 1-D: [b] runs along the last axis. *)
Definition broadcast21 (op : float64 → float64 → float64)
    (a : array2) (b : array1) : result array2 :=
  rows (λ r, broadcast op r b) a.

(** [a op= b] with [a] 2-D and [b] 1-D. *)
Definition inplace21 (op : float64 → float64 → float64)
    (a : array2) (b : array1) : result array2 :=
  rows (λ r, inplace op r b) a.

(** [a op= b] with both 2-D of the same number of rows. *)
Fixpoint inplace22 (op : float64 → float64 → float64)
    (a b : array2) : result array2 :=
  match a, b with
  | [], [] => Ok []
  | r :: a', s :: b' =>
      r' ← inplace op r s; a'' ← inplace22 op a' b'; Ok (r' :: a'')
  | _, _ => Err ValueError
  end.

(** [a[m]] with [m] a boolean array of the length of [a]. *)
Fixpoint select_ {A} (m : list bool) (a : list A) : list A :=
  match m, a with
  | b :: m', x :: a' => if b then x :: select_ m' a' else select_ m' a'
  | _, _ => []
  end.

Definition select {A} (m : list bool) (a : list A) : result (list A) :=
  if decide (length m = length a) then Ok (select_ m a)
  else Err IndexError.

(** [a[m] = v]: the values of [v] go, in order, to the places where [m] is
    true; a single value is used for all of them. *)
Fixpoint put_ {A} (m : list bool) (a v : list A) : list A :=
  match m, a with
  | b :: m', x :: a' =>
      if b then
        match v with
        | y :: v' => y :: put_ m' a' v'
        | [] => x :: put_ m' a' []
        end
      else x :: put_ m' a' v
  | _, _ => a
  end.

Definition count_true (m : list bool) : nat :=
  length (filter (λ b, b = true) m).

Definition put {A} (m : list bool) (a v : list A) : result (list A) :=
  if decide (length m = length a) then
    if decide (length v = count_true m) then Ok (put_ m a v)
    else match v with
         | [y] => Ok (put_ m a (replicate (count_true m) y))
         | _ => Err ValueError
         end
  else Err IndexError.

(** [a[ii]] with [ii] an array of row numbers: a new array. *)
Definition getitems {A} (a : list A) (ii : list nat) : result (list A) :=
  rows (getitem a) ii.

(** [np.where(c)[0]]: the positions where [c] holds. *)
Fixpoint where_from (i : nat) (c : list bool) : list nat :=
  match c with
  | [] => []
  | b :: c' => if b then i :: where_from (S i) c' else where_from (S i) c'
  end.
Definition where_ (c : list bool) : list nat := where_from 0 c.

End NP.

(** ** utils_specviewer._coadd *)

Module Coadd.
Import NP.

(** The four arrays the loop of [_coadd] accumulates into. *)
Record acc : Type := Acc {
  unweightedflux : array1;
  weightedflux : array1;
  weights : array1;
  outrdat : array2;
}.

Section arith.
Context (Ar : arith).

Definition coadd_body (flux ivar : array2) (rdat : array3)
    (i : nat) (s : acc) : result acc :=
  fi ← getitem flux i;
  u ← inplace (a_add Ar) (unweightedflux s) fi;
  vi ← getitem ivar i;
  fv ← broadcast (a_mul Ar) fi vi;
  wf ← inplace (a_add Ar) (weightedflux s) fv;
  w ← inplace (a_add Ar) (weights s) vi;
  ri ← getitem rdat i;
  rv ← broadcast21 (a_mul Ar) ri vi;
  r ← inplace22 (a_add Ar) (outrdat s) rv;
  Ok (Acc u wf w r).

Definition _coadd_with (wave : array1) (flux ivar : array2) (rdat : array3)
  : result (array1 * array1 * array1 * array2) :=
  let '(nspec, nwave) := shape2 flux in
  let unweightedflux0 := zeros nwave in
  let weightedflux0 := zeros nwave in
  let weights0 := zeros nwave in
  rdat0 ← getitem rdat 0;
  let outrdat0 := zeros2 (shape2 rdat0) in
  s ← for_ (seq 0 nspec) (coadd_body flux ivar rdat)
         (Acc unweightedflux0 weightedflux0 weights0 outrdat0);
  let isbad := (λ w, feqb w f0) <$> weights s in
  outflux ← broadcast (a_div Ar) (weightedflux s)
              (zip_with (a_add Ar) (weights s) (of_bool <$> isbad));
  ub ← select isbad (unweightedflux s);
  outflux ← put isbad outflux ((λ x, a_div Ar x (of_nat nspec)) <$> ub);
  outrdat ← inplace21 (a_div Ar) (outrdat s)
              (zip_with (a_add Ar) (weights s) (of_bool <$> isbad));
  let outivar := weights s in
  Ok (wave, outflux, outivar, outrdat).

End arith.

(** [_coadd] when no operation rounds.  [coadd_targets] below is written
    with it; what is stated about [coadd_targets] does not depend on the
    values [_coadd] returns. *)
Definition _coadd : array1 → array2 → array2 → array3 →
    result (array1 * array1 * array1 * array2) :=
  _coadd_with unrounded.

End Coadd.

Module CoaddExamples.
Import NP Coadd.

Definition wave3 : array1 := [fz 1; fz 2; fz 3].
Definition flux2 : array2 := [[fz 10; fz 20; fz 30]; [fz 12; fz 18; fz 32]].
Definition ivar2 : array2 := [[fz 1; fz 1; fz 1]; [fz 1; fz 1; fz 1]].
Definition rdat2 : array3 := [[[fz 1; fz 1; fz 1]]; [[fz 1; fz 1; fz 1]]].

(** The double [0.1]. *)
Definition tenth : float64 := Binary64.double 1 10.

End CoaddExamples.

(** ** Shapes, columns and the sums of [_coadd] *)

Module CoaddSpec.
Import NP Coadd.

#[export] Instance float64_inhabited : Inhabited float64 := populate f0.

(** [a] has [n] rows of [m] elements each. *)
Definition has_shape2 (n m : nat) (a : array2) : Prop :=
  length a = n ∧ Forall (λ r, length r = m) a.

Definition has_shape3 (n d m : nat) (a : array3) : Prop :=
  length a = n ∧ Forall (has_shape2 d m) a.

(** [a[:, j]] *)
Definition column (j : nat) (a : array2) : array1 := (λ r, r !!! j) <$> a.

(** [a[:, k, j]] *)
Definition column3 (k j : nat) (a : array3) : array1 :=
  (λ s, (s !!! k) !!! j) <$> a.

Section arith.
Context (Ar : arith).

(** What the loop of [_coadd] leaves in its accumulators. *)
Fixpoint loop_spec (flux ivar : array2) (rdat : array3) (s : acc) : acc :=
  match flux, ivar, rdat with
  | fi :: flux', vi :: ivar', ri :: rdat' =>
      loop_spec flux' ivar' rdat'
        (Acc (zip_with (a_add Ar) (unweightedflux s) fi)
             (zip_with (a_add Ar) (weightedflux s)
                (zip_with (a_mul Ar) fi vi))
             (zip_with (a_add Ar) (weights s) vi)
             (zip_with (zip_with (a_add Ar)) (outrdat s)
                ((λ r, zip_with (a_mul Ar) r vi) <$> ri)))
  | _, _, _ => s
  end.

(** [weights + isbad] *)
Definition denominator (s : acc) : array1 :=
  zip_with (a_add Ar) (weights s)
    (of_bool <$> ((λ w, feqb w f0) <$> weights s)).

(** The coadded flux of [_coadd] at sample [j], in terms of column [j]. *)
Definition flux_at (nspec j : nat) (flux ivar : array2) : float64 :=
  let weight := asum Ar (column j ivar) in
  if feqb weight f0
  then a_div Ar (asum Ar (column j flux)) (of_nat nspec)
  else a_div Ar (asum Ar (zip_with (a_mul Ar) (column j flux) (column j ivar)))
         (a_add Ar weight f0).

(** The coadded resolution of [_coadd] at diagonal [k] and sample [j]. *)
Definition rdat_at (k j : nat) (rdat : array3) (ivar : array2) : float64 :=
  let weight := asum Ar (column j ivar) in
  a_div Ar (asum Ar (zip_with (a_mul Ar) (column3 k j rdat) (column j ivar)))
    (a_add Ar weight (of_bool (feqb weight f0))).

End arith.

(** The accumulators [_coadd] starts from. *)
Definition init (nwave : nat) (rdat : array3) : acc :=
  Acc (zeros nwave) (zeros nwave) (zeros nwave)
      (zeros2 (shape2 (default [] (head rdat)))).

End CoaddSpec.

(** ** The heap of arrays *)

Module Heap.
Import NP.

Abbreviation imask := (list (list Z)).

(** A numpy array object: float arrays of one, two and three dimensions
    and the two-dimensional integer array of a mask. *)
Inductive ndarray : Type :=
| F1 (a : array1)
| F2 (a : array2)
| F3 (a : array3)
| I2 (a : imask).

#[export] Instance ndarray_eq_dec : EqDecision ndarray.
Proof. solve_decision. Defined.

(** A location names an array object; the heap holds the objects in the
    order of their creation. *)
Abbreviation loc := nat.
Abbreviation heap := (list ndarray).

(** Code that reads and writes the heap and may raise. *)
Definition M (A : Type) : Type := heap → heap * result A.

Definition run {A} (m : M A) (h : heap) : heap * result A := m h.

#[export] Instance M_ret : MRet M := λ A a h, (h, Ok a).
#[export] Instance M_bind : MBind M := λ A B f m h,
  match m h with
  | (h', Ok a) => f a h'
  | (h', Err e) => (h', Err e)
  end.

Definition raise {A} (e : exn) : M A := λ h, (h, Err e).

(** A computation that does not touch the heap. *)
Definition lift {A} (r : result A) : M A := λ h, (h, r).

(** [for x in xs: s = body x s] *)
Fixpoint for_M {X S : Type} (xs : list X) (body : X → S → M S) (s : S)
  : M S :=
  match xs with
  | [] => mret s
  | x :: xs' => s' ← body x s; for_M xs' body s'
  end.

(** A new array object. *)
Definition alloc (a : ndarray) : M loc := λ h, (h ++ [a], Ok (length h)).

Definition load (l : loc) : M ndarray := λ h,
  (h, match h !! l with Some a => Ok a | None => Err TypeError end).

Definition store (l : loc) (a : ndarray) : M () := λ h, (<[l:=a]> h, Ok ()).

Definition load1 (l : loc) : M array1 :=
  a ← load l; match a with F1 x => mret x | _ => raise TypeError end.
Definition load2 (l : loc) : M array2 :=
  a ← load l; match a with F2 x => mret x | _ => raise TypeError end.
Definition load3 (l : loc) : M array3 :=
  a ← load l; match a with F3 x => mret x | _ => raise TypeError end.
Definition loadm (l : loc) : M imask :=
  a ← load l; match a with I2 x => mret x | _ => raise TypeError end.

(** [d[k]] on a dict: KeyError when the key is absent. *)
Definition getkey {V} (d : gmap string V) (k : string) : result V :=
  match d !! k with Some v => Ok v | None => Err KeyError end.

(** The values [t[...] = v] stores in a row [t]: those of [v], a single
    value being repeated. *)
Definition assign1 {A} (t v : list A) : result (list A) :=
  if decide (length t = length v) then Ok v
  else match v with
       | [y] => Ok (replicate (length t) y)
       | _ => Err ValueError
       end.

Fixpoint assign_rows {A} (t v : list (list A)) : result (list (list A)) :=
  match t, v with
  | [], [] => Ok []
  | r :: t', s :: v' =>
      r' ← assign1 r s; t'' ← assign_rows t' v'; Ok (r' :: t'')
  | _, _ => Err ValueError
  end.

Definition assign2 {A} (t v : list (list A)) : result (list (list A)) :=
  if decide (length t = length v) then assign_rows t v
  else match v with
       | [s] => rows (λ r, assign1 r s) t
       | _ => Err ValueError
       end.

(** [a[i] = v] for the 2-D float array at [l]. *)
Definition setrow2 (l : loc) (i : nat) (v : array1) : M () :=
  a ← load2 l;
  t ← lift (getitem a i);
  r ← lift (assign1 t v);
  store l (F2 (<[i:=r]> a)).

(** [a[i] = v] for the 3-D float array at [l]. *)
Definition setrow3 (l : loc) (i : nat) (v : array2) : M () :=
  a ← load3 l;
  t ← lift (getitem a i);
  r ← lift (assign2 t v);
  store l (F3 (<[i:=r]> a)).

(** [a[i] = v] for the mask at [l]. *)
Definition setrowm (l : loc) (i : nat) (v : list Z) : M () :=
  a ← loadm l;
  t ← lift (getitem a i);
  r ← lift (assign1 t v);
  store l (I2 (<[i:=r]> a)).

(** [a[i]] with [i] an integer is a view: it names row [i] of the array
    object at [l] and is read when it is used. *)
Inductive view : Type := View (l : loc) (i : nat).

Definition view2 (l : loc) (i : nat) : M view :=
  a ← load2 l; _ ← lift (getitem a i); mret (View l i).
Definition view3 (l : loc) (i : nat) : M view :=
  a ← load3 l; _ ← lift (getitem a i); mret (View l i).
Definition viewm (l : loc) (i : nat) : M view :=
  a ← loadm l; _ ← lift (getitem a i); mret (View l i).

Definition read2 (v : view) : M array1 :=
  let 'View l i := v in a ← load2 l; lift (getitem a i).
Definition read3 (v : view) : M array2 :=
  let 'View l i := v in a ← load3 l; lift (getitem a i).
Definition readm (v : view) : M (list Z) :=
  let 'View l i := v in a ← loadm l; lift (getitem a i).

(** [v |= w] on integer rows, element by element. *)
Definition inplace_or (a b : list Z) : result (list Z) :=
  if decide (length a = length b) then Ok (zip_with Z.lor a b)
  else match b with
       | [y] => Ok ((λ x, Z.lor x y) <$> a)
       | _ => Err ValueError
       end.

(** [out |= w] through the view [out]: the row of the array it names is
    updated in place. *)
Definition ior_view (out : view) (w : list Z) : M () :=
  let 'View l i := out in
  a ← loadm l;
  t ← lift (getitem a i);
  r ← lift (inplace_or t w);
  store l (I2 (<[i:=r]> a)).

(** A value that is either a new array or a view of an existing one. *)
Inductive ref (A : Type) : Type :=
| New (a : A)
| Old (v : view).
Arguments New {A} a.
Arguments Old {A} v.

Definition get2 (r : ref array1) : M array1 :=
  match r with New a => mret a | Old v => read2 v end.
Definition get3 (r : ref array2) : M array2 :=
  match r with New a => mret a | Old v => read3 v end.

End Heap.

(** ** utils_specviewer.coadd_targets *)

Module CoaddTargets.
Import NP Coadd Heap.

(** A row of the fibermap table: the target identifier and the other
    columns. *)
Record fibermap_row : Type := Row {
  TARGETID : Z;
  columns : list Z;
}.

#[export] Instance fibermap_row_eq_dec : EqDecision fibermap_row.
Proof. solve_decision. Defined.

(** The fields of a [desispec.spectra.Spectra] object the coadder uses.
    The per-band dicts hold references to array objects. *)
Record Spectra : Type := MkSpectra {
  bands : list string;
  wave : gmap string loc;
  flux : gmap string loc;
  ivar : gmap string loc;
  mask : option (gmap string loc);
  resolution_data : gmap string loc;
  fibermap : list fibermap_row;
  meta : list (string * Z);
}.

#[export] Instance Spectra_eq_dec : EqDecision Spectra.
Proof. solve_decision. Defined.

(** The distinct values of a list, in the order of first appearance. *)
Fixpoint unique_from (seen : list Z) (l : list Z) : list Z :=
  match l with
  | [] => []
  | x :: l' =>
      if decide (x ∈ seen) then unique_from seen l'
      else x :: unique_from (x :: seen) l'
  end.

(** [Spectra.target_ids] of desispec: the distinct target identifiers of
    the fibermap, in the order they first appear. *)
Definition target_ids (spectra : Spectra) : list Z :=
  unique_from [] (TARGETID <$> fibermap spectra).

(** [Spectra.num_targets] of desispec: how many distinct target
    identifiers the fibermap has. *)
Definition num_targets (spectra : Spectra) : nat :=
  length (target_ids spectra).

(** The output dicts [wave], [flux], [ivar], [rdat] and [mask]. *)
Record outputs : Type := Outputs {
  o_wave : gmap string loc;
  o_flux : gmap string loc;
  o_ivar : gmap string loc;
  o_rdat : gmap string loc;
  o_mask : option (gmap string loc);
}.

(** Lines 426-434: the output arrays of one band. *)
Definition create_output (spectra : Spectra) (ntargets : nat)
    (channel : string) (o : outputs) : M outputs :=
  lw ← lift (getkey (wave spectra) channel);
  w ← load1 lw;
  lw' ← alloc (F1 w);
  let nwave := length w in
  lf' ← alloc (F2 (zeros2 (ntargets, nwave)));
  li' ← alloc (F2 (zeros2 (ntargets, nwave)));
  lr ← lift (getkey (resolution_data spectra) channel);
  r ← load3 lr;
  let ndiag := (shape2 r).2 in
  lr' ← alloc (F3 (zeros3 (ntargets, ndiag, nwave)));
  m' ← match o_mask o with
       | None => mret None
       | Some m =>
           smask ← lift (match mask spectra with
                         | Some d => Ok d | None => Err TypeError end);
           _ ← lift (getkey smask channel);
           lm' ← alloc (I2 (replicate ntargets (replicate nwave 0%Z)));
           mret (Some (<[channel:=lm']> m))
       end;
  mret (Outputs (<[channel:=lw']> (o_wave o)) (<[channel:=lf']> (o_flux o))
          (<[channel:=li']> (o_ivar o)) (<[channel:=lr']> (o_rdat o)) m').

(** Lines 441-467: one band of one target; [ii] are the rows of the
    target in the input, [i] is its row in the output. *)
Definition coadd_channel (spectra : Spectra) (o : outputs)
    (i : nat) (ii : list nat) (channel : string) (_ : ()) : M () :=
  '(outflux, outivar, outrdat, outmask) ←
    (if decide (1 < length ii) then
       lw ← lift (getkey (wave spectra) channel);
       w ← load1 lw;
       lf ← lift (getkey (flux spectra) channel);
       f ← load2 lf;
       fii ← lift (getitems f ii);
       lv ← lift (getkey (ivar spectra) channel);
       v ← load2 lv;
       vii ← lift (getitems v ii);
       lr ← lift (getkey (resolution_data spectra) channel);
       r ← load3 lr;
       rii ← lift (getitems r ii);
       '(_, outflux, outivar, outrdat) ← lift (_coadd w fii vii rii);
       outmask ←
         match o_mask o with
         | None => mret None
         | Some _ =>
             smask ← lift (match mask spectra with
                           | Some d => Ok d | None => Err TypeError end);
             lm ← lift (getkey smask channel);
             i0 ← lift (getitem ii 0);
             outmask ← viewm lm i0;
             _ ← for_M (seq 1 (length ii - 1)) (λ j _,
                   ij ← lift (getitem ii j);
                   mj ← viewm lm ij;
                   wj ← readm mj;
                   ior_view outmask wj) ();
             mret (Some outmask)
         end;
       mret (New outflux, New outivar, New outrdat, outmask)
     else
       lw ← lift (getkey (wave spectra) channel);
       _ ← load1 lw;
       lf ← lift (getkey (flux spectra) channel);
       i0 ← lift (getitem ii 0);
       outflux ← view2 lf i0;
       lv ← lift (getkey (ivar spectra) channel);
       outivar ← view2 lv i0;
       lr ← lift (getkey (resolution_data spectra) channel);
       outrdat ← view3 lr i0;
       outmask ←
         match o_mask o with
         | None => mret None
         | Some _ =>
             smask ← lift (match mask spectra with
                           | Some d => Ok d | None => Err TypeError end);
             lm ← lift (getkey smask channel);
             outmask ← viewm lm i0;
             mret (Some outmask)
         end;
       mret (Old outflux, Old outivar, Old outrdat, outmask));
  x ← get2 outflux;
  lf' ← lift (getkey (o_flux o) channel);
  _ ← setrow2 lf' i x;
  x ← get2 outivar;
  li' ← lift (getkey (o_ivar o) channel);
  _ ← setrow2 li' i x;
  x ← get3 outrdat;
  lr' ← lift (getkey (o_rdat o) channel);
  _ ← setrow3 lr' i x;
  match o_mask o, outmask with
  | Some m, Some outmask =>
      x ← readm outmask;
      lm' ← lift (getkey m channel);
      setrowm lm' i x
  | _, _ => mret ()
  end.

(** Lines 438-467: one target. *)
Definition coadd_target (spectra : Spectra) (o : outputs)
    (it : nat * Z) (fm : list fibermap_row) : M (list fibermap_row) :=
  let '(i, targetid) := it in
  let ii := where_ ((λ r, bool_decide (TARGETID r = targetid))
                      <$> fibermap spectra) in
  i0 ← lift (getitem ii 0);
  row ← lift (getitem (fibermap spectra) i0);
  let fm := fm ++ [row] in
  _ ← for_M (bands spectra) (coadd_channel spectra o i ii) ();
  mret fm.

(** [enumerate(l)] *)
Definition enumerate {A} (l : list A) : list (nat * A) :=
  zip (seq 0 (length l)) l.

(** Line 469, [desispec.spectra.Spectra(bands, wave, flux, ivar, mask=...,
    resolution_data=..., fibermap=..., meta=...)].  The constructor is
    code of the library desispec; it compares the dimensions of its
    arguments and raises RuntimeError where they disagree.  The arrays of
    lines 417-434 agree with each other in every band, so what is left of
    its checks here is the one on the fibermap: a band whose flux array
    has not one row for each row of the fibermap is refused. *)
Definition new_Spectra (bs : list string) (o : outputs)
    (fm : list fibermap_row) (meta : list (string * Z)) : M Spectra :=
  _ ← for_M bs (λ channel _,
        lf ← lift (getkey (o_flux o) channel);
        f ← load2 lf;
        if decide (length f = length fm) then mret ()
        else raise RuntimeError) ();
  mret (MkSpectra bs (o_wave o) (o_flux o) (o_ivar o) (o_mask o)
          (o_rdat o) fm meta).

(** Lines 413-467: the output arrays and the fibermap. *)
Definition coadd_arrays (spectra : Spectra) (targetids : option (list Z))
  : M (outputs * list fibermap_row) :=
  let targetids := default (target_ids spectra) targetids in
  let ntargets := num_targets spectra in
  let mask0 := match mask spectra with None => None | Some _ => Some ∅ end in
  o ← for_M (bands spectra) (create_output spectra ntargets)
        (Outputs ∅ ∅ ∅ ∅ mask0);
  fm ← for_M (enumerate targetids) (coadd_target spectra o) [];
  mret (o, fm).

Definition coadd_targets (spectra : Spectra) (targetids : option (list Z))
  : M Spectra :=
  '(o, fm) ← coadd_arrays spectra targetids;
  new_Spectra (bands spectra) o fm (meta spectra).

End CoaddTargets.

(** ** plotframes.create_model: the stitch of the three band grids *)

Module Stitch.
Import NP Heap.

Definition half : float64 := Fin (Q2Qc (1 # 2)).

(** [np.concatenate([a, b, c], axis=1)] on 2-D arrays: the rows are
    joined one by one; the arrays must have the same number of rows. *)
Definition concatenate_axis1 (a b c : array2) : result array2 :=
  if decide (length a = length b ∧ length b = length c)
  then Ok (zip_with app a (zip_with app b c))
  else Err ValueError.

(** Line 89: the cut between [b] and [r]. *)
Definition br_split (wave : gmap string array1) : result float64 :=
  wb ← getkey wave "b"; bl ← getlast wb;
  wr ← getkey wave "r"; r0 ← getitem wr 0;
  Ok (fmul half (fadd bl r0)).

(** Line 90: the cut between [r] and [z]. *)
Definition rz_split (wave : gmap string array1) : result float64 :=
  wr ← getkey wave "r"; rl ← getlast wr;
  wz ← getkey wave "z"; z0 ← getitem wz 0;
  Ok (fmul half (fadd rl z0)).

(** Lines 86-107 of [create_model].  The per-band model fluxes of lines
    69-84 come from the template library and are an argument here, as are
    the band grids [spectra.wave]. *)
Definition create_model (wave : gmap string array1)
    (model_flux : gmap string array2) : result (array1 * array2) :=
  if negb (forallb (λ band, bool_decide (is_Some (wave !! band)))
             ["b"; "r"; "z"])
  then Err AssertionError
  else
    br_split ← br_split wave;
    rz_split ← rz_split wave;
    wb ← getkey wave "b";
    let keep_b := (λ x, fltb x br_split) <$> wb in
    wr ← getkey wave "r";
    let keep_r := zip_with andb ((λ x, fleb br_split x) <$> wr)
                    ((λ x, fltb x rz_split) <$> wr) in
    wz ← getkey wave "z";
    let keep_z := (λ x, fleb rz_split x) <$> wz in
    sb ← select keep_b wb;
    sr ← select keep_r wr;
    sz ← select keep_z wz;
    let model_wave := sb ++ sr ++ sz in
    fb ← getkey model_flux "b"; mb ← rows (select keep_b) fb;
    fr ← getkey model_flux "r"; mr ← rows (select keep_r) fr;
    fz ← getkey model_flux "z"; mz ← rows (select keep_z) fz;
    mflux ← concatenate_axis1 mb mr mz;
    Ok (model_wave, mflux).

End Stitch.

(** ** plotframes: the noise columns *)

Module Noise.
Import NP.

(** [a[w] = v] with [w] an array of positions and [v] one value for each
    of them. *)
Fixpoint put_at {A} (a : list A) (w : list nat) (v : list A)
  : result (list A) :=
  match w, v with
  | [], [] => Ok a
  | i :: w', x :: v' =>
      if decide (i < length a) then put_at (<[i:=x]> a) w' v'
      else Err IndexError
  | _, _ => Err ValueError
  end.

Section with_sqrt.
(** [np.sqrt], whose values are not rational in general. *)
Variable sqrt : float64 → float64.

(** Lines 142-144 of [make_cds_spectra]: the noise of one spectrum of
    one band, from its inverse variance. *)
Definition make_cds_spectra_noise (ivar_i : array1) : result array1 :=
  let noise := zeros (length ivar_i) in
  let w := where_ ((λ x, fltb f0 x) <$> ivar_i) in
  iw ← getitems ivar_i w;
  put_at noise w ((λ x, fdiv f1 (sqrt x)) <$> iw).

(** Lines 162-167 of [make_cds_coaddcam_spec]: the noise of the first
    camera-coadded spectrum; [coadd_flux] and [coadd_ivar] are what
    [mycoaddcam] returns and [nwave] is the length of its wavelength
    array. *)
Definition make_cds_coaddcam_spec_plotnoise (with_noise : bool)
    (nwave : nat) (coadd_flux coadd_ivar : array2) : result array1 :=
  _ ← getitem coadd_flux 0;
  let plotnoise := ones nwave in
  if with_noise then
    iv0 ← getitem coadd_ivar 0;
    let w := where_ ((λ x, fltb f0 x) <$> iv0) in
    iw ← getitems iv0 w;
    put_at plotnoise w ((λ x, fdiv f1 (sqrt x)) <$> iw)
  else Ok plotnoise.

End with_sqrt.

End Noise.

(** ** Example inputs *)

Module CoaddTargetsExamples.
Import NP Heap CoaddTargets.

(** One band [b] of three samples and three exposures: two of target 7,
    then one of target 8.  The arrays are the objects 0 to 4 of the
    heap. *)
Definition heap3 : heap :=
  [ F1 [fz 1; fz 2; fz 3];
    F2 [[fz 10; fz 20; fz 30]; [fz 12; fz 18; fz 32]; [fz 5; fz 6; fz 7]];
    F2 [[fz 1; fz 1; fz 1]; [fz 1; fz 1; fz 1]; [fz 0; fz 2; fz 4]];
    F3 [[[fz 1; fz 1; fz 1]]; [[fz 1; fz 1; fz 1]]; [[fz 1; fz 1; fz 1]]];
    I2 [[1; 0; 0]; [0; 2; 0]; [0; 0; 4]]%Z ].

Definition fibermap3 : list fibermap_row :=
  [Row 7 [100]; Row 7 [101]; Row 8 [102]]%Z.

Definition spectra3 : Spectra :=
  MkSpectra ["b"] {["b" := 0]} {["b" := 1]} {["b" := 2]}
    (Some {["b" := 4]}) {["b" := 3]} fibermap3 [].

(** The same without a mask. *)
Definition spectra3_nomask : Spectra :=
  MkSpectra ["b"] {["b" := 0]} {["b" := 1]} {["b" := 2]}
    None {["b" := 3]} fibermap3 [].

(** One band, one exposure, whose first sample has no weight. *)
Definition heap1 : heap :=
  [ F1 [fz 1; fz 2];
    F2 [[fz 5; fz 6]];
    F2 [[fz 0; fz 2]];
    F3 [[[fz 1; fz 1]]] ].

Definition spectra1 : Spectra :=
  MkSpectra ["b"] {["b" := 0]} {["b" := 1]} {["b" := 2]}
    None {["b" := 3]} [Row 7 [100]%Z] [].

End CoaddTargetsExamples.

(** ** What a run may change in the heap *)

Module HeapSpec.
Import NP Heap CoaddTargets.

Definition is_float (a : ndarray) : Prop :=
  match a with I2 _ => False | _ => True end.

(** From [h] to [h'] no array object is lost, 1-D arrays are as they
    were, so are the 2-D and 3-D float arrays older than [D], and a mask
    is still a mask. *)
Definition evolves (D : nat) (h h' : heap) : Prop :=
  length h ≤ length h' ∧
  ∀ l a, h !! l = Some a →
    match a with
    | F1 _ => h' !! l = Some a
    | F2 _ | F3 _ => l < D → h' !! l = Some a
    | I2 _ => ∃ b, h' !! l = Some (I2 b)
    end.

(** [m] respects [evolves D] from any heap that holds the objects older
    than [D]. *)
Definition frames (D : nat) {A} (m : M A) : Prop :=
  ∀ h, D ≤ length h → evolves D h (m h).1.

(** Every value [m] returns satisfies [Q]. *)
Definition post (D : nat) {A} (m : M A) (Q : A → Prop) : Prop :=
  ∀ h a, D ≤ length h → (m h).2 = Ok a → Q a.

Definition fresh_dict (D : nat) (d : gmap string loc) : Prop :=
  ∀ k l, d !! k = Some l → D ≤ l.

(** The arrays of the output dicts are younger than [D]. *)
Definition fresh_outputs (D : nat) (o : outputs) : Prop :=
  fresh_dict D (o_wave o) ∧ fresh_dict D (o_flux o) ∧
  fresh_dict D (o_ivar o) ∧ fresh_dict D (o_rdat o) ∧
  ∀ m, o_mask o = Some m → fresh_dict D m.

(** Each output grid holds, in [h], the values of the input grid of its
    band. *)
Definition wave_copied (spectra : Spectra) (o : outputs) (h : heap) : Prop :=
  ∀ ch l', o_wave o !! ch = Some l' →
    ∃ l w, wave spectra !! ch = Some l ∧ h !! l = Some (F1 w) ∧
           h !! l' = Some (F1 w).

End HeapSpec.

(** ** The stitch, in the words of the specification *)

Module StitchSpec.
Import NP Heap Stitch.

(** A dict with the three bands. *)
Definition bands3 {A} (b r z : A) : gmap string A :=
  <["b":=b]> (<["r":=r]> (<["z":=z]> ∅)).

(** The midpoint between the last sample of a band and the first sample
    of the next. *)
Definition midpoint (x y : Qc) : Qc := (Q2Qc (1 # 2) * (x + y))%Qc.

(** The flux values of a row whose wavelength sample satisfies [P], in
    order. *)
Definition kept {A} (P : Qc → Prop) `{∀ x, Decision (P x)}
    (w : list Qc) (f : list A) : list A :=
  snd <$> filter (λ p, P p.1) (zip w f).

(** The merged grid: the [b] samples below the first midpoint, the [r]
    samples from the first midpoint up to the second, the [z] samples from
    the second midpoint on. *)
Definition merged_grid (b r z : list Qc) (br_split rz_split : Qc)
  : list Qc :=
  filter (λ x, x < br_split)%Qc b ++
  filter (λ x, br_split <= x ∧ x < rz_split)%Qc r ++
  filter (λ x, rz_split <= x)%Qc z.

Definition merged_row {A} (b r z : list Qc) (br_split rz_split : Qc)
    (fb fr fz : list A) : list A :=
  kept (λ x, x < br_split)%Qc b fb ++
  kept (λ x, br_split <= x ∧ x < rz_split)%Qc r fr ++
  kept (λ x, rz_split <= x)%Qc z fz.

(** A strictly increasing grid. *)
Definition increasing (l : list Qc) : Prop := StronglySorted Qclt l.

End StitchSpec.

Module StitchExamples.
Import NP StitchSpec.

Definition grid_b : list Qc := [zq 0; zq 1; zq 2; zq 3].
Definition grid_r : list Qc := [zq 5; zq 6; zq 7; zq 8].
Definition grid_z : list Qc := [zq 10; zq 11].

(** One model row per band, numbered like the samples. *)
Definition mflux_b : array2 := [[fz 100; fz 101; fz 102; fz 103]].
Definition mflux_r : array2 := [[fz 105; fz 106; fz 107; fz 108]].
Definition mflux_z : array2 := [[fz 110; fz 111]].

End StitchExamples.

(** ** Inputs in which every target has one exposure *)

Module PassThroughSpec.
Import NP Heap CoaddTargets CoaddSpec.

(** The arrays of one band. *)
Record band_arrays : Type := BandArrays {
  ba_wave : array1;
  ba_flux : array2;
  ba_ivar : array2;
  ba_rdat : array3;
  ba_ndiag : nat;
  ba_mask : imask;
}.

(** In heap [h] the band [ch] of [spectra] has the arrays [a], of [n]
    exposures. *)
Definition band_in (spectra : Spectra) (h : heap) (n : nat) (ch : string)
    (a : band_arrays) : Prop :=
  let m := length (ba_wave a) in
  (∃ lw, wave spectra !! ch = Some lw ∧ h !! lw = Some (F1 (ba_wave a))) ∧
  (∃ lf, flux spectra !! ch = Some lf ∧ h !! lf = Some (F2 (ba_flux a))) ∧
  (∃ lv, ivar spectra !! ch = Some lv ∧ h !! lv = Some (F2 (ba_ivar a))) ∧
  (∃ lr, resolution_data spectra !! ch = Some lr ∧
         h !! lr = Some (F3 (ba_rdat a))) ∧
  has_shape2 n m (ba_flux a) ∧ has_shape2 n m (ba_ivar a) ∧
  has_shape3 n (ba_ndiag a) m (ba_rdat a) ∧
  ∀ dm, mask spectra = Some dm →
    ∃ lm, dm !! ch = Some lm ∧ h !! lm = Some (I2 (ba_mask a)) ∧
          length (ba_mask a) = n ∧ Forall (λ r, length r = m) (ba_mask a).

(** Every band has its arrays in the heap, band names are distinct, and no
    two rows of the fibermap are of the same target. *)
Definition all_single_exposure (spectra : Spectra) (h : heap) : Prop :=
  NoDup (bands spectra) ∧
  NoDup (TARGETID <$> fibermap spectra) ∧
  ∀ ch, ch ∈ bands spectra →
    ∃ a, band_in spectra h (length (fibermap spectra)) ch a.

(** How many arrays the coadder creates for a band. *)
Definition stride (spectra : Spectra) : nat :=
  match mask spectra with Some _ => 5 | None => 4 end.

(** The first [k] rows of [a], then rows of zeros up to [n] rows. *)
Definition mix {A} (n k : nat) (zero : A) (a : list A) : list A :=
  take k a ++ replicate (n - k) zero.

(** The output dicts name, for the band at position [j], the arrays created
    [stride * j] objects after the first [D]. *)
Definition dicts_ready (spectra : Spectra) (D : nat) (bs : list string)
    (o : outputs) : Prop :=
  let s := stride spectra in
  (∀ j ch, bs !! j = Some ch →
     o_wave o !! ch = Some (D + s * j) ∧
     o_flux o !! ch = Some (D + s * j + 1) ∧
     o_ivar o !! ch = Some (D + s * j + 2) ∧
     o_rdat o !! ch = Some (D + s * j + 3)) ∧
  match mask spectra with
  | None => o_mask o = None
  | Some _ => ∃ dm', o_mask o = Some dm' ∧
                ∀ j ch, bs !! j = Some ch → dm' !! ch = Some (D + s * j + 4)
  end.

(** The heap while target [k] is under way and the first [jp] bands are
    done for it: the objects of [h0] are as they were, and the output arrays
    of the bands [bs] hold the rows copied so far. *)
Definition layout (spectra : Spectra) (h0 : heap) (bs : list string)
    (h : heap) (k jp : nat) : Prop :=
  let D := length h0 in
  let s := stride spectra in
  let n := length (fibermap spectra) in
  (∀ l, l < D → h !! l = h0 !! l) ∧
  length h = D + s * length bs ∧
  ∀ j ch a, bs !! j = Some ch → band_in spectra h0 n ch a →
    let c := if decide (j < jp) then S k else k in
    let m := length (ba_wave a) in
    h !! (D + s * j) = Some (F1 (ba_wave a)) ∧
    h !! (D + s * j + 1) = Some (F2 (mix n c (zeros m) (ba_flux a))) ∧
    h !! (D + s * j + 2) = Some (F2 (mix n c (zeros m) (ba_ivar a))) ∧
    h !! (D + s * j + 3)
    = Some (F3 (mix n c (zeros2 (ba_ndiag a, m)) (ba_rdat a))) ∧
    (is_Some (mask spectra) →
     h !! (D + s * j + 4)
     = Some (I2 (mix n c (replicate m 0%Z) (ba_mask a)))).

End PassThroughSpec.


Module PassThroughExamples.
Import NP Heap CoaddTargets PassThroughSpec.

(** The arrays of band b of [CoaddTargetsExamples.spectra1]: one exposure
    of two samples, the first of them with inverse variance zero. *)
Definition arrays1 : band_arrays :=
  BandArrays [fz 1; fz 2] [[fz 5; fz 6]] [[fz 0; fz 2]] [[[fz 1; fz 1]]] 1 [].

End PassThroughExamples.
(** * Facts about [_coadd] *)

Module CoaddFacts.
Import NP Coadd CoaddSpec.

Lemma fadd_0_r x : fadd x f0 = x.
Proof. destruct x; simpl; try done. by rewrite Qcplus_0_r. Qed.

Lemma fadd_0_l x : fadd f0 x = x.
Proof. destruct x; simpl; try done. by rewrite Qcplus_0_l. Qed.

Lemma feqb_eq x y : feqb x y = true → x = y.
Proof.
  destruct x, y; simpl; try done.
  intros H%bool_decide_eq_true. by subst.
Qed.

Lemma feqb_0 x : feqb x f0 = true ↔ x = f0.
Proof.
  split; [apply feqb_eq|]. by intros ->.
Qed.

Lemma inplace_ok op a b :
  length a = length b → inplace op a b = Ok (zip_with op a b).
Proof. intros H. unfold inplace. by rewrite decide_True. Qed.

Lemma broadcast_ok op a b :
  length a = length b → broadcast op a b = Ok (zip_with op a b).
Proof. intros H. unfold broadcast. by rewrite decide_True. Qed.

Lemma rows_ok {A B} (f : A → result B) (g : A → B) a :
  Forall (λ x, f x = Ok (g x)) a → rows f a = Ok (g <$> a).
Proof.
  induction 1 as [|x a Hx _ IH]; simpl; [done|]. by rewrite Hx, IH.
Qed.

Lemma inplace22_ok op a b :
  Forall2 (λ r s, length r = length s) a b →
  inplace22 op a b = Ok (zip_with (zip_with op) a b).
Proof.
  induction 1 as [|r s a b Hrs _ IH]; simpl; [done|].
  by rewrite inplace_ok, IH.
Qed.

Lemma length_zip_with_same {A B C} (f : A → B → C) l k :
  length l = length k → length (zip_with f l k) = length l.
Proof. intros H. rewrite length_zip_with. lia. Qed.

Lemma has_shape2_zip_with op d m a b :
  has_shape2 d m a → has_shape2 d m b →
  has_shape2 d m (zip_with (zip_with op) a b).
Proof.
  intros [La Fa] [Lb Fb]. split.
  - rewrite length_zip_with. lia.
  - apply Forall_lookup. intros i x Hx.
    apply lookup_zip_with_Some in Hx as (r & s & -> & Hr & Hs).
    rewrite length_zip_with.
    rewrite (Forall_lookup_1 _ _ _ _ Fa Hr), (Forall_lookup_1 _ _ _ _ Fb Hs).
    lia.
Qed.

Lemma has_shape2_scale op d m (a : array2) (v : array1) :
  has_shape2 d m a → length v = m →
  has_shape2 d m ((λ r, zip_with op r v) <$> a).
Proof.
  intros [La Fa] Lv. split; [by rewrite length_fmap|].
  apply Forall_fmap. eapply Forall_impl; [done|]. simpl.
  intros r Hr. rewrite length_zip_with. lia.
Qed.

Lemma has_shape2_zeros2 d m : has_shape2 d m (zeros2 (d, m)).
Proof.
  split; unfold zeros2, zeros; simpl; [by rewrite length_replicate|].
  apply Forall_replicate. by rewrite length_replicate.
Qed.

Lemma shape2_has_shape2 d m (a : array2) :
  has_shape2 d m a → 0 < d → shape2 a = (d, m).
Proof.
  intros [La Fa] Hd. unfold shape2. destruct Fa as [|r a Hr _]; simpl in *.
  - lia.
  - by rewrite Hr, La.
Qed.

Lemma has_shape2_same_lengths d m a b :
  has_shape2 d m a → has_shape2 d m b →
  Forall2 (λ r s : array1, length r = length s) a b.
Proof.
  intros [La Fa] [Lb Fb]. apply Forall2_same_length_lookup_2; [lia|].
  intros i r s Hr Hs.
  by rewrite (Forall_lookup_1 _ _ _ _ Fa Hr), (Forall_lookup_1 _ _ _ _ Fb Hs).
Qed.

Section arith.
Context (Ar : arith).

(** One turn of the loop on rows of matching shapes. *)
Lemma coadd_body_ok m d flux ivar rdat k s fi vi ri :
  flux !! k = Some fi → ivar !! k = Some vi → rdat !! k = Some ri →
  length fi = m → length vi = m → has_shape2 d m ri →
  length (unweightedflux s) = m → length (weightedflux s) = m →
  length (weights s) = m → has_shape2 d m (outrdat s) →
  coadd_body Ar flux ivar rdat k s
  = Ok (Acc (zip_with (a_add Ar) (unweightedflux s) fi)
            (zip_with (a_add Ar) (weightedflux s) (zip_with (a_mul Ar) fi vi))
            (zip_with (a_add Ar) (weights s) vi)
            (zip_with (zip_with (a_add Ar)) (outrdat s)
               ((λ r, zip_with (a_mul Ar) r vi) <$> ri))).
Proof.
  intros Efi Evi Eri Lfi Lvi Hri Hu Hwf Hw Hr.
  unfold coadd_body, getitem. rewrite Efi. simpl.
  rewrite (inplace_ok _ (unweightedflux s)) by congruence. simpl.
  rewrite Evi. simpl.
  rewrite (broadcast_ok _ fi vi) by congruence. simpl.
  rewrite (inplace_ok _ (weightedflux s))
    by (rewrite length_zip_with; lia). simpl.
  rewrite (inplace_ok _ (weights s)) by congruence. simpl.
  rewrite Eri. simpl. unfold broadcast21.
  rewrite (rows_ok _ (λ r, zip_with (a_mul Ar) r vi)); simpl.
  2:{ destruct Hri as [_ Hri]. eapply Forall_impl; [done|]. simpl.
      intros r Hr'. apply broadcast_ok. congruence. }
  rewrite inplace22_ok; simpl; [done|].
  eapply has_shape2_same_lengths; [done|]. by apply has_shape2_scale.
Qed.

(** The loop runs to its end on arrays of matching shapes. *)
Lemma loop_ok m d flux ivar rdat : ∀ n k s,
  length (drop k flux) = n → length (drop k ivar) = n →
  length (drop k rdat) = n →
  Forall (λ r, length r = m) flux → Forall (λ r, length r = m) ivar →
  Forall (has_shape2 d m) rdat →
  length (unweightedflux s) = m → length (weightedflux s) = m →
  length (weights s) = m → has_shape2 d m (outrdat s) →
  for_ (seq k n) (coadd_body Ar flux ivar rdat) s
  = Ok (loop_spec Ar (drop k flux) (drop k ivar) (drop k rdat) s).
Proof.
  induction n as [|n IH]; intros k s Lf Lv Lr Ff Fv Fr Hu Hwf Hw Hr.
  - apply length_zero_iff_nil in Lf, Lv, Lr. rewrite Lf, Lv, Lr.
    by destruct s.
  - destruct (flux !! k) as [fi|] eqn:Efi;
      [|apply lookup_ge_None in Efi; rewrite length_drop in Lf; lia].
    destruct (ivar !! k) as [vi|] eqn:Evi;
      [|apply lookup_ge_None in Evi; rewrite length_drop in Lv; lia].
    destruct (rdat !! k) as [ri|] eqn:Eri;
      [|apply lookup_ge_None in Eri; rewrite length_drop in Lr; lia].
    pose proof (Forall_lookup_1 _ _ _ _ Ff Efi) as Lfi.
    pose proof (Forall_lookup_1 _ _ _ _ Fv Evi) as Lvi.
    pose proof (Forall_lookup_1 _ _ _ _ Fr Eri) as Hri.
    simpl in Lfi, Lvi.
    rewrite (drop_S _ _ _ Efi), (drop_S _ _ _ Evi), (drop_S _ _ _ Eri) in *.
    simpl in Lf, Lv, Lr. simpl.
    rewrite (coadd_body_ok m d _ _ _ _ _ fi vi ri) by done. simpl.
    apply IH; simpl; try lia; try done.
    + rewrite length_zip_with. lia.
    + rewrite !length_zip_with. lia.
    + rewrite length_zip_with. lia.
    + apply has_shape2_zip_with; [done|]. by apply has_shape2_scale.
Qed.

Lemma column_cons j r (a : array2) : column j (r :: a) = r !!! j :: column j a.
Proof. done. Qed.

Lemma length_column j (a : array2) : length (column j a) = length a.
Proof. apply length_fmap. Qed.

Lemma row_lookup m j (r : array1) :
  length r = m → j < m → r !! j = Some (r !!! j).
Proof. intros <- Hj. by apply list_lookup_lookup_total_lt. Qed.

(** Column [j] of the accumulators after the loop. *)
Lemma loop_spec_lookup m j : ∀ flux ivar rdat s u wf w,
  length flux = length ivar → length ivar = length rdat →
  Forall (λ r, length r = m) flux → Forall (λ r, length r = m) ivar →
  j < m →
  unweightedflux s !! j = Some u → weightedflux s !! j = Some wf →
  weights s !! j = Some w →
  let s' := loop_spec Ar flux ivar rdat s in
  unweightedflux s' !! j = Some (foldl (a_add Ar) u (column j flux)) ∧
  weightedflux s' !! j
  = Some (foldl (a_add Ar) wf
            (zip_with (a_mul Ar) (column j flux) (column j ivar))) ∧
  weights s' !! j = Some (foldl (a_add Ar) w (column j ivar)).
Proof.
  induction flux as [|fi flux IH];
    intros [|vi ivar] [|ri rdat] s u wf w Lfv Lvr Ff Fv Hj Hu Hwf Hw;
    simpl in *; try done.
  inversion Ff as [|? ? Lfi Ff']; inversion Fv as [|? ? Lvi Fv']; subst.
  apply IH; try done; try lia; simpl; rewrite lookup_zip_with.
  - rewrite Hu. simpl. by rewrite (row_lookup (length fi) j fi).
  - rewrite Hwf. simpl. rewrite lookup_zip_with.
    rewrite (row_lookup (length fi) j fi) by done. simpl.
    by rewrite (row_lookup (length fi) j vi).
  - rewrite Hw. simpl. by rewrite (row_lookup (length fi) j vi).
Qed.

(** Diagonal [k], column [j] of the resolution accumulator. *)
Lemma loop_spec_lookup_rdat d m k j : ∀ flux ivar rdat s row r0,
  length flux = length ivar → length ivar = length rdat →
  Forall (λ r, length r = m) ivar → Forall (has_shape2 d m) rdat →
  k < d → j < m →
  outrdat s !! k = Some row → row !! j = Some r0 →
  ∃ row', outrdat (loop_spec Ar flux ivar rdat s) !! k = Some row' ∧
    row' !! j
    = Some (foldl (a_add Ar) r0
              (zip_with (a_mul Ar) (column3 k j rdat) (column j ivar))).
Proof.
  induction flux as [|fi flux IH];
    intros [|vi ivar] [|ri rdat] s row r0 Lfv Lvr Fv Fr Hk Hj Hrow Hr0;
    simpl in *; try done; try by eauto.
  inversion Fv as [|? ? Lvi Fv']; inversion Fr as [|? ? [Lri Fri] Fr']; subst.
  destruct (ri !! k) as [rk|] eqn:Erk;
    [|apply lookup_ge_None in Erk; lia].
  pose proof (Forall_lookup_1 _ _ _ _ Fri Erk) as Lrk. simpl in Lrk.
  rewrite (list_lookup_total_correct _ _ _ Erk).
  eapply IH; try done; try lia; simpl.
  - rewrite lookup_zip_with, Hrow. simpl.
    by rewrite list_lookup_fmap, Erk.
  - rewrite lookup_zip_with, Hr0. simpl. rewrite lookup_zip_with.
    rewrite (row_lookup (length vi) j rk) by done. simpl.
    by rewrite (row_lookup (length vi) j vi).
Qed.

(** The accumulators keep their shapes. *)
Lemma loop_spec_shape d m : ∀ flux ivar rdat s,
  Forall (λ r, length r = m) flux → Forall (λ r, length r = m) ivar →
  Forall (has_shape2 d m) rdat →
  length (unweightedflux s) = m → length (weightedflux s) = m →
  length (weights s) = m → has_shape2 d m (outrdat s) →
  let s' := loop_spec Ar flux ivar rdat s in
  length (unweightedflux s') = m ∧ length (weightedflux s') = m ∧
  length (weights s') = m ∧ has_shape2 d m (outrdat s').
Proof.
  induction flux as [|fi flux IH];
    intros [|vi ivar] [|ri rdat] s Ff Fv Fr Hu Hwf Hw Hr;
    simpl in *; try done.
  inversion Ff; inversion Fv; inversion Fr; subst.
  apply IH; try done; simpl; rewrite ?length_zip_with; try lia.
  apply has_shape2_zip_with; [done|]. by apply has_shape2_scale.
Qed.

Lemma length_select_ {A} (m : list bool) (a : list A) :
  length m = length a → length (select_ m a) = count_true m.
Proof.
  unfold count_true. revert a.
  induction m as [|b m IH]; intros [|x a] L; simpl in *; try done.
  destruct b; [rewrite filter_cons_True by done
              |rewrite filter_cons_False by done];
    simpl; rewrite IH; done || lia.
Qed.

(** [a[m] = g(b[m])] read back at place [j]. *)
Lemma put_select_lookup {A} (g : A → A) : ∀ (m : list bool) a b j,
  length m = length a → length m = length b →
  put_ m a (g <$> select_ m b) !! j
  = (c ← m !! j; if c : bool then g <$> b !! j else a !! j).
Proof.
  induction m as [|c m IH]; intros [|x a] [|y b] j La Lb;
    simpl in *; try done.
  destruct c, j as [|j]; simpl; try done; apply IH; lia.
Qed.

Lemma has_shape2_zeros2_shape2 d m (a : array2) :
  has_shape2 d m a → has_shape2 d m (zeros2 (shape2 a)).
Proof.
  intros Ha. destruct (decide (d = 0)) as [->|Hd].
  - destruct Ha as [->%length_zero_iff_nil _]. by split.
  - rewrite (shape2_has_shape2 d m) by (done || lia).
    apply has_shape2_zeros2.
Qed.

(** On exposures of one shape [_coadd] returns, and its result is the
    formula of its last lines applied to the sums of the loop. *)
Lemma coadd_ok wave flux ivar rdat nspec nwave ndiag :
  0 < nspec →
  has_shape2 nspec nwave flux → has_shape2 nspec nwave ivar →
  has_shape3 nspec ndiag nwave rdat →
  let s := loop_spec Ar flux ivar rdat (init nwave rdat) in
  let isbad := (λ w, feqb w f0) <$> weights s in
  _coadd_with Ar wave flux ivar rdat
  = Ok (wave,
        put_ isbad (zip_with (a_div Ar) (weightedflux s) (denominator Ar s))
          ((λ x, a_div Ar x (of_nat nspec))
             <$> select_ isbad (unweightedflux s)),
        weights s,
        (λ r, zip_with (a_div Ar) r (denominator Ar s)) <$> outrdat s).
Proof.
  intros Hn Hf Hv Hr s isbad. unfold _coadd_with.
  rewrite (shape2_has_shape2 nspec nwave) by done.
  destruct Hf as [Lf Ff], Hv as [Lv Fv], Hr as [Lr Fr].
  destruct rdat as [|rdat0 rdat']; simpl in Lr; [lia|].
  assert (has_shape2 ndiag nwave rdat0) as Hr0 by (by inversion Fr).
  change (getitem (rdat0 :: rdat') 0) with (Ok rdat0).
  cbn [mbind result_bind].
  change (Acc (zeros nwave) (zeros nwave) (zeros nwave)
            (zeros2 (shape2 rdat0))) with (init nwave (rdat0 :: rdat')).
  assert (length (zeros nwave) = nwave) as Lz
    by (unfold zeros; by rewrite length_replicate).
  assert (has_shape2 ndiag nwave (zeros2 (shape2 rdat0))) as Hz
    by (by apply has_shape2_zeros2_shape2).
  rewrite (loop_ok nwave ndiag flux ivar (rdat0 :: rdat'));
    rewrite ?drop_0; try done; try (simpl; lia).
  cbn [mbind result_bind]. fold s. fold isbad.
  destruct (loop_spec_shape ndiag nwave flux ivar (rdat0 :: rdat')
              (init nwave (rdat0 :: rdat')))
    as (Lu & Lwf & Lw & Lo); try done.
  fold s in Lu, Lwf, Lw, Lo.
  assert (length isbad = nwave) as Lb
    by (unfold isbad; by rewrite length_fmap).
  assert (length (denominator Ar s) = nwave) as Ld.
  { unfold denominator. rewrite length_zip_with, !length_fmap. lia. }
  change (zip_with (a_add Ar) (weights s) (of_bool <$> isbad))
    with (denominator Ar s).
  rewrite broadcast_ok by congruence. cbn [mbind result_bind].
  unfold select. rewrite decide_True by congruence.
  cbn [mbind result_bind].
  unfold put. rewrite decide_True by (rewrite length_zip_with; lia).
  rewrite decide_True
    by (rewrite length_fmap, length_select_; [done|congruence]).
  cbn [mbind result_bind]. unfold inplace21.
  rewrite (rows_ok _ (λ r, zip_with (a_div Ar) r (denominator Ar s))); [done|].
  destruct Lo as [_ Lo]. eapply Forall_impl; [done|]. simpl.
  intros r Hr'. apply inplace_ok. congruence.
Qed.

Lemma length_put_ {A} : ∀ (m : list bool) (a v : list A),
  length (put_ m a v) = length a.
Proof.
  induction m as [|c m IH]; intros [|x a] v; simpl; try done.
  destruct c; [destruct v|]; simpl; by rewrite IH.
Qed.

Lemma zeros_lookup n j : j < n → zeros n !! j = Some f0.
Proof. intros H. unfold zeros. by apply lookup_replicate_2. Qed.

Lemma zeros2_lookup d m k : k < d → zeros2 (d, m) !! k = Some (zeros m).
Proof. intros H. unfold zeros2. by apply lookup_replicate_2. Qed.

Lemma coadd_lookup wave flux ivar rdat nspec nwave ndiag :
  0 < nspec →
  has_shape2 nspec nwave flux → has_shape2 nspec nwave ivar →
  has_shape3 nspec ndiag nwave rdat →
  ∃ outflux outivar outrdat,
    _coadd_with Ar wave flux ivar rdat
    = Ok (wave, outflux, outivar, outrdat) ∧
    length outflux = nwave ∧ length outivar = nwave ∧
    (∀ j, j < nwave →
       outflux !! j = Some (flux_at Ar nspec j flux ivar) ∧
       outivar !! j = Some (asum Ar (column j ivar))) ∧
    has_shape2 ndiag nwave outrdat ∧
    (∀ k j, k < ndiag → j < nwave →
       ∃ row, outrdat !! k = Some row ∧
              row !! j = Some (rdat_at Ar k j rdat ivar)).
Proof.
  intros Hn Hf Hv Hr. eexists _, _, _.
  split; [by eapply coadd_ok|].
  destruct Hf as [Lf Ff], Hv as [Lv Fv]. pose proof Hr as [Lr Fr].
  assert (has_shape2 ndiag nwave (outrdat (init nwave rdat))) as Hinit.
  { destruct rdat as [|r0 rdat']; simpl in *; [lia|].
    apply has_shape2_zeros2_shape2. by inversion Fr. }
  destruct (loop_spec_shape ndiag nwave flux ivar rdat (init nwave rdat))
    as (Lu & Lwf & Lw & Lo); simpl; try done;
    try (unfold zeros; by rewrite length_replicate).
  set (s := loop_spec Ar flux ivar rdat (init nwave rdat)) in *.
  assert (length (denominator Ar s) = nwave) as Ld.
  { unfold denominator. rewrite length_zip_with, !length_fmap. lia. }
  assert (∀ j, j < nwave →
            unweightedflux s !! j = Some (asum Ar (column j flux)) ∧
            weightedflux s !! j
            = Some (asum Ar (zip_with (a_mul Ar) (column j flux)
                               (column j ivar))) ∧
            weights s !! j = Some (asum Ar (column j ivar))) as Hcol.
  { intros j Hj.
    apply (loop_spec_lookup nwave j flux ivar rdat (init nwave rdat));
      try done; try lia; by apply zeros_lookup. }
  assert (∀ j, j < nwave →
            denominator Ar s !! j
            = Some ((a_add Ar) (asum Ar (column j ivar))
                      (of_bool (feqb (asum Ar (column j ivar)) f0)))) as Hden.
  { intros j Hj. destruct (Hcol j Hj) as (_ & _ & Hw).
    unfold denominator. rewrite lookup_zip_with, Hw. simpl.
    by rewrite !list_lookup_fmap, Hw. }
  split; [|split; [done|split; [|split]]].
  - rewrite length_put_, length_zip_with. lia.
  - intros j Hj. destruct (Hcol j Hj) as (Hu & Hwf & Hw).
    split; [|done].
    rewrite put_select_lookup;
      rewrite ?length_fmap, ?length_zip_with; try lia.
    rewrite !list_lookup_fmap, Hw, Hu. simpl.
    unfold flux_at.
    destruct (feqb (asum Ar (column j ivar)) f0) eqn:E; [done|].
    rewrite lookup_zip_with, Hwf. simpl.
    rewrite (Hden j Hj), E. simpl. done.
  - destruct Lo as [Lo Fo]. split; [by rewrite length_fmap|].
    apply Forall_fmap. eapply Forall_impl; [done|]. simpl.
    intros r Hr'. rewrite length_zip_with. lia.
  - intros k j Hk Hj.
    destruct (loop_spec_lookup_rdat ndiag nwave k j flux ivar rdat
                (init nwave rdat) (zeros nwave) f0)
      as (row & Hrow & Hrj); try done; try lia.
    { destruct rdat as [|r0 rdat']; simpl in *; [lia|].
      rewrite (shape2_has_shape2 ndiag nwave r0); [|by inversion Fr|lia].
      by apply zeros2_lookup. }
    { by apply zeros_lookup. }
    fold s in Hrow.
    exists (zip_with (a_div Ar) row (denominator Ar s)). split.
    + by rewrite list_lookup_fmap, Hrow.
    + rewrite lookup_zip_with, Hrj. simpl. by rewrite (Hden j Hj).
Qed.

End arith.

(** *** The divisors *)

Lemma zq_0_iff z : zq z = 0%Qc ↔ z = 0%Z.
Proof.
  unfold zq. change 0%Qc with (Q2Qc 0). rewrite Q2Qc_eq_iff.
  unfold Qeq. simpl. lia.
Qed.

Lemma of_nat_nonzero n : 0 < n → feqb (of_nat n) f0 = false.
Proof.
  intros Hn. apply bool_decide_eq_false. rewrite zq_0_iff. lia.
Qed.

Lemma fltb_0_feqb w : fltb f0 w = true → feqb w f0 = false.
Proof.
  destruct w as [q| | |]; simpl; try done.
  intros H%bool_decide_eq_true. apply bool_decide_eq_false.
  intros ->. by apply Qclt_not_eq in H.
Qed.

(** [weights + isbad] is not zero, whatever [weights] is. *)
Lemma denominator_nonzero w : feqb (fadd w (of_bool (feqb w f0))) f0 = false.
Proof.
  destruct (feqb w f0) eqn:E; simpl.
  - by apply feqb_0 in E as ->.
  - by rewrite fadd_0_r.
Qed.

(** *** Equal inverse variances *)

Lemma asum_zeros (Ar : arith) n :
  a_add Ar f0 f0 = f0 → asum Ar (replicate n f0) = f0.
Proof.
  intros H0. unfold asum. induction n as [|n IH]; [done|].
  cbn [replicate foldl]. by rewrite H0.
Qed.

End CoaddFacts.
(** * Facts about the heap and [coadd_targets] *)

Module HeapFacts.
Import NP Heap CoaddTargets HeapSpec.

Lemma evolves_refl D h : evolves D h h.
Proof. split; [done|]. intros l [] Hl; eauto. Qed.

Lemma evolves_trans D h1 h2 h3 :
  evolves D h1 h2 → evolves D h2 h3 → evolves D h1 h3.
Proof.
  intros [L12 H12] [L23 H23]. split; [lia|].
  intros l a Hl. specialize (H12 l a Hl). destruct a.
  - by apply (H23 l (F1 _)).
  - intros Hlt. by apply (H23 l (F2 _)); auto.
  - intros Hlt. by apply (H23 l (F3 _)); auto.
  - destruct H12 as [b Hb]. by apply (H23 l (I2 b)).
Qed.

Lemma evolves_app D h rest : evolves D h (h ++ rest).
Proof.
  split; [rewrite length_app; lia|].
  intros l a Hl.
  assert ((h ++ rest) !! l = Some a) as H
    by (rewrite lookup_app_l; [done|by eapply lookup_lt_Some]).
  destruct a; eauto.
Qed.

Lemma evolves_insert D h l a b :
  h !! l = Some a →
  match a, b with
  | F2 _, F2 _ | F3 _, F3 _ => D ≤ l
  | I2 _, I2 _ => True
  | _, _ => False
  end →
  evolves D h (<[l:=b]> h).
Proof.
  intros Hl Hab. split; [by rewrite length_insert|].
  intros l' a' Hl'. destruct (decide (l = l')) as [<-|Hne].
  - assert (a' = a) as -> by congruence.
    destruct a, b; try done; try (intros; lia).
    exists a0. apply list_lookup_insert_eq. by eapply lookup_lt_Some.
  - rewrite list_lookup_insert_ne by done. destruct a'; eauto.
Qed.

(** *** Rules for [frames] *)

Lemma frames_ret D {A} (a : A) : frames D (mret a).
Proof. intros h _. apply evolves_refl. Qed.

Lemma frames_raise D {A} e : frames D (raise (A:=A) e).
Proof. intros h _. apply evolves_refl. Qed.

Lemma frames_lift D {A} (r : result A) : frames D (lift r).
Proof. intros h _. apply evolves_refl. Qed.

Lemma frames_bind_post D {A B} (m : M A) (f : A → M B) (Q : A → Prop) :
  frames D m → post D m Q → (∀ a, Q a → frames D (f a)) →
  frames D (m ≫= f).
Proof.
  intros Hm HQ Hf h Hh. specialize (Hm h Hh). specialize (HQ h).
  unfold mbind, M_bind. destruct (m h) as [h' [a|e]]; simpl in *; [|done].
  eapply evolves_trans; [done|]. apply Hf; [by apply HQ|].
  destruct Hm. lia.
Qed.

Lemma frames_bind D {A B} (m : M A) (f : A → M B) :
  frames D m → (∀ a, frames D (f a)) → frames D (m ≫= f).
Proof.
  intros Hm Hf. apply (frames_bind_post D m f (λ _, True)); auto. done.
Qed.

Lemma frames_bind_lift D {A B} (r : result A) (f : A → M B) :
  (∀ a, r = Ok a → frames D (f a)) → frames D (lift r ≫= f).
Proof.
  intros Hf. apply (frames_bind_post D _ f (λ a, r = Ok a)); auto.
  - apply frames_lift.
  - by intros h a _.
Qed.

Lemma frames_for D {X S} (body : X → S → M S) (xs : list X) :
  (∀ x s, frames D (body x s)) → ∀ s, frames D (for_M xs body s).
Proof.
  intros Hb. induction xs as [|x xs IH]; intros s; simpl.
  - apply frames_ret.
  - apply frames_bind; auto.
Qed.

Lemma frames_load D l : frames D (load l).
Proof. intros h _. apply evolves_refl. Qed.

Lemma frames_alloc D a : frames D (alloc a).
Proof. intros h _. apply evolves_app. Qed.

Lemma post_alloc D a : post D (alloc a) (λ l, D ≤ l).
Proof. intros h l Hh [= <-]. done. Qed.

Lemma frames_load1 D l : frames D (load1 l).
Proof.
  apply frames_bind; [apply frames_load|].
  intros []; apply frames_ret || apply frames_raise.
Qed.

Lemma frames_load2 D l : frames D (load2 l).
Proof.
  apply frames_bind; [apply frames_load|].
  intros []; apply frames_ret || apply frames_raise.
Qed.

Lemma frames_load3 D l : frames D (load3 l).
Proof.
  apply frames_bind; [apply frames_load|].
  intros []; apply frames_ret || apply frames_raise.
Qed.

Lemma frames_loadm D l : frames D (loadm l).
Proof.
  apply frames_bind; [apply frames_load|].
  intros []; apply frames_ret || apply frames_raise.
Qed.

(** Unfolds the heap primitives of a goal about one run. *)
Ltac run_prim :=
  unfold setrow2, setrow3, setrowm, ior_view, view2, view3, viewm,
    read2, read3, readm, load1, load2, load3, loadm, load, store, lift,
    raise, mbind, M_bind, mret, M_ret;
  simpl;
  repeat (case_match; simpl in *; simplify_eq; try apply evolves_refl).

Lemma frames_setrow2 D l i v : D ≤ l → frames D (setrow2 l i v).
Proof. intros Hl h Hh. run_prim. by eapply evolves_insert. Qed.

Lemma frames_setrow3 D l i v : D ≤ l → frames D (setrow3 l i v).
Proof. intros Hl h Hh. run_prim. by eapply evolves_insert. Qed.

Lemma frames_setrowm D l i v : frames D (setrowm l i v).
Proof. intros h Hh. run_prim. by eapply evolves_insert. Qed.

Lemma frames_ior_view D out w : frames D (ior_view out w).
Proof. intros h Hh. run_prim. by eapply evolves_insert. Qed.

Lemma frames_view2 D l i : frames D (view2 l i).
Proof. intros h Hh. run_prim. Qed.

Lemma frames_view3 D l i : frames D (view3 l i).
Proof. intros h Hh. run_prim. Qed.

Lemma frames_viewm D l i : frames D (viewm l i).
Proof. intros h Hh. run_prim. Qed.

Lemma frames_read2 D v : frames D (read2 v).
Proof. intros h Hh. run_prim. Qed.

Lemma frames_read3 D v : frames D (read3 v).
Proof. intros h Hh. run_prim. Qed.

Lemma frames_readm D v : frames D (readm v).
Proof. intros h Hh. run_prim. Qed.

Lemma frames_get2 D r : frames D (get2 r).
Proof. destruct r; [apply frames_ret|apply frames_read2]. Qed.

Lemma frames_get3 D r : frames D (get3 r).
Proof. destruct r; [apply frames_ret|apply frames_read3]. Qed.

Create HintDb frames discriminated.
#[export] Hint Resolve frames_ret frames_raise frames_lift frames_load
  frames_alloc frames_load1 frames_load2 frames_load3 frames_loadm
  frames_setrowm frames_ior_view frames_view2 frames_view3 frames_viewm
  frames_read2 frames_read3 frames_readm frames_get2 frames_get3 : frames.

(** One step through a sequence of statements. *)
Ltac frames_step :=
  lazymatch goal with
  | |- frames _ (mbind _ (lift _)) => apply frames_bind_lift; intros ? ?
  | |- frames _ (mbind _ _) => apply frames_bind; [|intros ?]
  | |- frames _ (match ?x with _ => _ end) => destruct x
  | |- frames _ (let '(_, _) := ?x in _) => destruct x
  | |- frames _ (for_M _ _ _) => apply frames_for; intros ? ?
  | |- _ => auto with frames
  end.

Lemma getkey_fresh D (d : gmap string loc) k l :
  fresh_dict D d → getkey d k = Ok l → D ≤ l.
Proof.
  intros Hd. unfold getkey. destruct (d !! k) eqn:E; [|done].
  intros [= <-]. by eapply Hd.
Qed.

Lemma frames_coadd_channel D spectra o i ii channel u :
  fresh_outputs D o → frames D (coadd_channel spectra o i ii channel u).
Proof.
  intros (Hw & Hf & Hi & Hr & Hm). unfold coadd_channel.
  repeat frames_step.
  - apply frames_setrow2. eauto using getkey_fresh.
  - apply frames_setrow2. eauto using getkey_fresh.
  - apply frames_setrow3. eauto using getkey_fresh.
Qed.

Lemma frames_coadd_target D spectra o it fm :
  fresh_outputs D o → frames D (coadd_target spectra o it fm).
Proof.
  intros Ho. unfold coadd_target. destruct it as [i targetid].
  repeat frames_step. by apply frames_coadd_channel.
Qed.

Lemma frames_create_output D spectra n channel o :
  frames D (create_output spectra n channel o).
Proof. unfold create_output. repeat frames_step. Qed.

Lemma for_M_cons {X S} (body : X → S → M S) x xs s h :
  for_M (x :: xs) body s h
  = match body x s h with
    | (h1, Ok s1) => for_M xs body s1 h1
    | (h1, Err e) => (h1, Err e)
    end.
Proof. done. Qed.

(** What a successful [create_output] did. *)
Lemma create_output_inv spectra n ch o h h' o' :
  create_output spectra n ch o h = (h', Ok o') →
  ∃ lw w rest,
    wave spectra !! ch = Some lw ∧ h !! lw = Some (F1 w) ∧
    h' = h ++ F1 w :: rest ∧
    o_wave o' = <[ch:=length h]> (o_wave o) ∧
    ∃ lf li lr,
      o_flux o' = <[ch:=lf]> (o_flux o) ∧
      o_ivar o' = <[ch:=li]> (o_ivar o) ∧
      o_rdat o' = <[ch:=lr]> (o_rdat o) ∧
      length h ≤ lf ∧ length h ≤ li ∧ length h ≤ lr ∧
      match o_mask o with
      | None => o_mask o' = None
      | Some m => ∃ lm, o_mask o' = Some (<[ch:=lm]> m) ∧ length h ≤ lm
      end.
Proof.
  unfold create_output, getkey, load1, load3, load, alloc, lift, raise,
    mbind, M_bind, mret, M_ret.
  intros H. repeat (case_match; simpl in *; simplify_eq).
  all: eexists _, _, _; split; [done|]; split; [done|].
  all: split; [by rewrite <- !app_assoc|]; split; [done|].
  all: eexists _, _, _; do 3 (split; [done|]).
  all: rewrite ?length_app; do 3 (split; [lia|]); [].
  - eexists; split; [done|]. lia.
  - done.
Qed.

(** [create_output] only adds objects to the heap. *)
Lemma create_output_grows spectra n ch o h :
  ∃ rest, (create_output spectra n ch o h).1 = h ++ rest.
Proof.
  unfold create_output, getkey, load1, load3, load, alloc, lift, raise,
    mbind, M_bind, mret, M_ret.
  repeat (case_match; simpl in *; simplify_eq);
    rewrite <- ?app_assoc; try (by eexists);
    exists []; by rewrite app_nil_r.
Qed.

Lemma fresh_dict_insert D (d : gmap string loc) k l :
  fresh_dict D d → D ≤ l → fresh_dict D (<[k:=l]> d).
Proof.
  intros Hd Hl k' l'. rewrite lookup_insert.
  case_decide; [by intros [= <-]|]. apply Hd.
Qed.

(** The loop of lines 426-434: the output dicts it returns name new
    arrays, the grids among them are copies of the input grids, and every
    band has one. *)
Lemma create_outputs_inv D spectra n : ∀ bs o h h' o',
  for_M bs (create_output spectra n) o h = (h', Ok o') →
  D ≤ length h → fresh_outputs D o → wave_copied spectra o h →
  (∃ rest, h' = h ++ rest) ∧
  fresh_outputs D o' ∧ wave_copied spectra o' h' ∧
  (∀ ch, ch ∈ bs → is_Some (o_wave o' !! ch)) ∧
  (∀ ch, is_Some (o_wave o !! ch) → is_Some (o_wave o' !! ch)).
Proof.
  induction bs as [|b bs IH]; intros o h h' o' Hrun Hh Ho HJ.
  - injection Hrun as <- <-. split_and!; try done.
    + exists []. by rewrite app_nil_r.
    + by intros ch ?%elem_of_nil.
  - rewrite for_M_cons in Hrun.
    destruct (create_output spectra n b o h) as [h1 [o1|e]] eqn:E;
      [|done].
    apply create_output_inv in E
      as (lw & w & rest & Hlw & Hw & -> & Ew & lf & li & lr &
          Ef & Ei & Er & Hlf & Hli & Hlr & Hmask).
    destruct Ho as (Fw & Ff & Fi & Fr & Fm).
    apply IH in Hrun as ([rest' ->] & Ho' & HJ' & Hin & Hmono).
    + split_and!; try done.
      * exists (F1 w :: rest ++ rest'). by rewrite <- app_assoc.
      * intros ch [->|Hch]%elem_of_cons; [|by apply Hin].
        apply Hmono. rewrite Ew, lookup_insert_eq. by eexists.
      * intros ch Hch. apply Hmono. rewrite Ew, lookup_insert.
        case_decide; [by eexists|done].
    + rewrite length_app. lia.
    + unfold fresh_outputs. rewrite Ew, Ef, Ei, Er. split_and!.
      * apply fresh_dict_insert; [done|lia].
      * apply fresh_dict_insert; [done|lia].
      * apply fresh_dict_insert; [done|lia].
      * apply fresh_dict_insert; [done|lia].
      * intros m Hm. destruct (o_mask o) as [m0|] eqn:Em0.
        -- destruct Hmask as (lm & Hm' & Hlm).
           assert (m = <[b:=lm]> m0) as -> by congruence.
           apply fresh_dict_insert; [by apply Fm|lia].
        -- congruence.
    + intros ch l'. rewrite Ew, lookup_insert. case_decide.
      * intros [= <-]. subst ch. exists lw, w. split_and!; [done|..].
        -- rewrite lookup_app_l; [done|by eapply lookup_lt_Some].
        -- by rewrite list_lookup_middle.
      * intros (l & w' & H1 & H2 & H3)%HJ. exists l, w'.
        split_and!; [done|..].
        -- rewrite lookup_app_l; [done|by eapply lookup_lt_Some].
        -- rewrite lookup_app_l; [done|by eapply lookup_lt_Some].
Qed.

Lemma create_outputs_grows spectra n : ∀ bs o h,
  ∃ rest, (for_M bs (create_output spectra n) o h).1 = h ++ rest.
Proof.
  induction bs as [|b bs IH]; intros o h.
  - exists []. by rewrite app_nil_r.
  - rewrite for_M_cons.
    destruct (create_output_grows spectra n b o h) as [rest Hrest].
    destruct (create_output spectra n b o h) as [h1 [o1|e]];
      simpl in Hrest; subst h1; [|by eexists].
    destruct (IH o1 (h ++ rest)) as [rest' ->].
    exists (rest ++ rest'). by rewrite app_assoc.
Qed.

Lemma fresh_outputs_empty D (m : option (gmap string loc)) :
  fresh_outputs D (Outputs ∅ ∅ ∅ ∅ (match m with
                                     | None => None
                                     | Some _ => Some ∅
                                     end : option (gmap string loc))).
Proof.
  unfold fresh_outputs, fresh_dict. simpl. split_and!;
    try (intros k l; by rewrite lookup_empty).
  intros d Hd k l. destruct m; simplify_eq. by rewrite lookup_empty.
Qed.

Lemma evolves_unchanged h h' :
  evolves (length h) h h' →
  ∀ l a, h !! l = Some a → is_float a → h' !! l = Some a.
Proof.
  intros [_ H] l a Hl Ha. specialize (H l a Hl).
  destruct a; try done; apply H; by eapply lookup_lt_Some.
Qed.

(** Lines 413-467, whatever their outcome. *)
Lemma coadd_arrays_evolves spectra targetids h :
  evolves (length h) h (coadd_arrays spectra targetids h).1.
Proof.
  unfold coadd_arrays.
  apply frames_bind_post with (Q := fresh_outputs (length h)); [| |..|done].
  - apply frames_for. intros. apply frames_create_output.
  - intros h0 o Hh0 Hrun.
    destruct (for_M _ _ _ h0) as [h1 r1] eqn:E. simpl in Hrun. subst r1.
    eapply (create_outputs_inv (length h)) in E as (_ & Ho & _);
      [done|done|apply fresh_outputs_empty|].
    intros ch l'. simpl. by rewrite lookup_empty.
  - intros o Ho. apply frames_bind; [|intros; apply frames_ret].
    apply frames_for. intros. by apply frames_coadd_target.
Qed.

(** What lines 413-467 leave when they run to their end. *)
Lemma coadd_arrays_inv spectra targetids h h' o fm :
  coadd_arrays spectra targetids h = (h', Ok (o, fm)) →
  fresh_outputs (length h) o ∧
  ∀ ch, ch ∈ bands spectra →
    ∃ l l' w, wave spectra !! ch = Some l ∧ o_wave o !! ch = Some l' ∧
      h' !! l' = Some (F1 w) ∧ (l < length h → h !! l = Some (F1 w)).
Proof.
  unfold coadd_arrays, mbind, M_bind. intros Hrun.
  destruct (for_M (bands spectra) _ _ h) as [h1 [o1|e]] eqn:E1; [|done].
  destruct (for_M (enumerate _) _ _ h1) as [h2 [fm1|e]] eqn:E2; [|done].
  injection Hrun as <- <- <-.
  pose proof E1 as E1'.
  eapply (create_outputs_inv (length h)) in E1
    as ([rest ->] & Ho & HJ & Hin & _);
    [|done|apply fresh_outputs_empty|]; cycle 1.
  { intros ch l'. simpl. by rewrite lookup_empty. }
  assert (evolves (length h) (h ++ rest) h2) as [_ Hev].
  { assert (frames (length h)
              (for_M (enumerate (default (target_ids spectra) targetids))
                 (coadd_target spectra o1) [])) as Hf
      by (apply frames_for; intros; by apply frames_coadd_target).
    specialize (Hf (h ++ rest)). rewrite E2 in Hf. apply Hf.
    rewrite length_app. lia. }
  split; [done|].
  intros ch Hch. destruct (Hin ch Hch) as [l' Hl'].
  destruct (HJ ch l' Hl') as (l & w & Hl & Hlw & Hl'w).
  exists l, l', w. split_and!; try done.
  - by apply (Hev l' (F1 w)).
  - intros Hlt. by rewrite lookup_app_l in Hlw.
Qed.

(** The checks of the constructor read the heap and leave it as it is. *)
Lemma new_Spectra_check (o : outputs) (n : nat) channel h :
  ∃ r, (lf ← lift (getkey (o_flux o) channel);
        f ← load2 lf;
        if decide (length f = n) then mret () else raise RuntimeError) h
       = (h, r).
Proof.
  unfold lift, load2, load, raise, mbind, M_bind, mret, M_ret.
  repeat (case_match; simpl in *; simplify_eq); by eexists.
Qed.

Lemma new_Spectra_checks (o : outputs) (n : nat) : ∀ bs h,
  (for_M bs (λ channel (_ : ()),
     lf ← lift (getkey (o_flux o) channel);
     f ← load2 lf;
     if decide (length f = n) then mret () else raise RuntimeError) () h).1
  = h.
Proof.
  induction bs as [|b bs IH]; intros h; [done|].
  rewrite for_M_cons.
  destruct (new_Spectra_check o n b h) as [r ->].
  destruct r as [[]|e]; [apply IH|done].
Qed.

Lemma new_Spectra_heap bs o fm meta h : (new_Spectra bs o fm meta h).1 = h.
Proof.
  unfold new_Spectra. unfold mbind at 1. unfold M_bind.
  pose proof (new_Spectra_checks o (length fm) bs h) as H.
  destruct (for_M bs _ () h) as [h1 [[]|e]]; simpl in *; by subst.
Qed.

Lemma new_Spectra_inv bs o fm meta h h' out :
  new_Spectra bs o fm meta h = (h', Ok out) →
  out = MkSpectra bs (o_wave o) (o_flux o) (o_ivar o) (o_mask o) (o_rdat o)
          fm meta.
Proof.
  unfold new_Spectra. unfold mbind at 1. unfold M_bind.
  destruct (for_M bs _ () h) as [h1 [[]|e]]; [|done].
  by intros [= _ <-].
Qed.

(** The constructor is the last step of [coadd_targets]. *)
Lemma coadd_targets_heap spectra targetids h :
  (coadd_targets spectra targetids h).1
  = (coadd_arrays spectra targetids h).1.
Proof.
  unfold coadd_targets. unfold mbind at 1. unfold M_bind.
  destruct (coadd_arrays spectra targetids h) as [h1 [[o fm]|e]]; [|done].
  apply new_Spectra_heap.
Qed.

Lemma coadd_targets_Ok spectra targetids h h' out :
  coadd_targets spectra targetids h = (h', Ok out) →
  ∃ o fm,
    coadd_arrays spectra targetids h = (h', Ok (o, fm)) ∧
    out = MkSpectra (bands spectra) (o_wave o) (o_flux o) (o_ivar o)
            (o_mask o) (o_rdat o) fm (meta spectra).
Proof.
  unfold coadd_targets. unfold mbind at 1. unfold M_bind.
  destruct (coadd_arrays spectra targetids h) as [h1 [[o fm]|e]] eqn:E;
    [|done].
  intros Hrun. exists o, fm.
  pose proof (new_Spectra_heap (bands spectra) o fm (meta spectra) h1) as Hh.
  rewrite Hrun in Hh. simpl in Hh. subst h'.
  split; [done|]. by eapply new_Spectra_inv.
Qed.

(** The whole of [coadd_targets], whatever its outcome. *)
Lemma coadd_targets_evolves spectra targetids h :
  evolves (length h) h (coadd_targets spectra targetids h).1.
Proof. rewrite coadd_targets_heap. apply coadd_arrays_evolves. Qed.

(** What a successful [coadd_targets] returns. *)
Lemma coadd_targets_inv spectra targetids h h' out :
  coadd_targets spectra targetids h = (h', Ok out) →
  bands out = bands spectra ∧
  fresh_outputs (length h)
    (Outputs (wave out) (flux out) (ivar out) (resolution_data out)
       (mask out)) ∧
  ∀ ch, ch ∈ bands spectra →
    ∃ l l' w, wave spectra !! ch = Some l ∧ wave out !! ch = Some l' ∧
      h' !! l' = Some (F1 w) ∧ (l < length h → h !! l = Some (F1 w)).
Proof.
  intros (o & fm & Hrun & ->)%coadd_targets_Ok.
  apply coadd_arrays_inv in Hrun as [Ho Hw].
  split_and!; [done|by destruct o|done].
Qed.

Lemma for_M_app {X S} (body : X → S → M S) : ∀ xs ys s h,
  for_M (xs ++ ys) body s h
  = match for_M xs body s h with
    | (h1, Ok s1) => for_M ys body s1 h1
    | (h1, Err e) => (h1, Err e)
    end.
Proof.
  induction xs as [|x xs IH]; intros ys s h; [done|].
  rewrite <- app_comm_cons, !for_M_cons.
  destruct (body x s h) as [h1 [s1|e]]; [apply IH|done].
Qed.

Lemma enumerate_app {A} (pre : list A) t post :
  enumerate (pre ++ t :: post)
  = enumerate pre ++
    (length pre, t) :: zip (seq (S (length pre)) (length post)) post.
Proof.
  unfold enumerate. rewrite length_app. simpl length.
  rewrite seq_app. simpl seq.
  rewrite zip_with_app by (by rewrite length_seq). done.
Qed.

Lemma where_from_none c : ∀ i, Forall (λ b, b = false) c → where_from i c = [].
Proof.
  induction c as [|b c IH]; intros i Hc; [done|].
  inversion Hc; subst. simpl. auto.
Qed.

(** No row for the target: [ii[0]] raises. *)
Lemma coadd_target_missing spectra o i t fm h :
  t ∉ (TARGETID <$> fibermap spectra) →
  coadd_target spectra o (i, t) fm h = (h, Err IndexError).
Proof.
  intros Ht. unfold coadd_target, where_.
  rewrite where_from_none; [done|].
  apply Forall_fmap, Forall_forall. intros r Hr. simpl.
  apply bool_decide_eq_false. intros <-. apply Ht.
  by apply list_elem_of_fmap_2.
Qed.

End HeapFacts.
(** * Facts about the noise columns and the stitch *)

Module NoiseFacts.
Import NP Noise.

(** [a[np.where(p(a))]] are the elements of [a] that satisfy [p]. *)
Lemma getitems_where (p : float64 → bool) : ∀ xs pre,
  getitems (pre ++ xs) (where_from (length pre) (p <$> xs))
  = Ok (select_ (p <$> xs) xs).
Proof.
  unfold getitems. induction xs as [|x xs IH]; intros pre; [done|].
  specialize (IH (pre ++ [x])).
  rewrite length_app, <- app_assoc in IH. simpl in IH.
  replace (length pre + 1) with (S (length pre)) in IH by lia.
  simpl. destruct (p x); simpl; [|done].
  assert (getitem (pre ++ x :: xs) (length pre) = Ok x) as ->
    by (unfold getitem; by rewrite list_lookup_middle).
  simpl. fold (fmap (M:=list) p xs). by rewrite IH.
Qed.

(** [a[np.where(p(xs))] = g(xs[np.where(p(xs))])], read back. *)
Lemma put_at_where (p : float64 → bool) (g : float64 → float64) :
  ∀ xs (a : array1) i, i + length xs ≤ length a →
  ∃ a', put_at a (where_from i (p <$> xs)) (g <$> select_ (p <$> xs) xs)
        = Ok a' ∧
    length a' = length a ∧
    (∀ j, j < i → a' !! j = a !! j) ∧
    ∀ k x, xs !! k = Some x →
      a' !! (i + k) = if p x then Some (g x) else a !! (i + k).
Proof.
  induction xs as [|x xs IH]; intros a i Hi; simpl in *.
  - exists a. split_and!; done.
  - destruct (p x) eqn:Ep; simpl.
    + rewrite decide_True by lia.
      destruct (IH (<[i:=g x]> a) (S i)) as (a' & Hput & La & Hlo & Hk).
      { rewrite length_insert. lia. }
      exists a'. rewrite length_insert in La. split_and!; try done.
      * intros j Hj. rewrite Hlo by lia.
        apply list_lookup_insert_ne. lia.
      * intros [|k] y Hy; simpl in Hy.
        -- injection Hy as <-. rewrite Ep, Nat.add_0_r, Hlo by lia.
           apply list_lookup_insert_eq. lia.
        -- replace (i + S k) with (S i + k) by lia.
           rewrite (Hk k y Hy). destruct (p y); [done|].
           apply list_lookup_insert_ne. lia.
    + destruct (IH a (S i)) as (a' & Hput & La & Hlo & Hk); [lia|].
      exists a'. split_and!; try done.
      * intros j Hj. apply Hlo. lia.
      * intros [|k] y Hy; simpl in Hy.
        -- injection Hy as <-. rewrite Ep, Nat.add_0_r. apply Hlo. lia.
        -- replace (i + S k) with (S i + k) by lia. by apply Hk.
Qed.

End NoiseFacts.


Module StitchFacts.
Import NP Heap Stitch StitchSpec CoaddSpec CoaddFacts.

Lemma bands3_b {A} (b r z : A) : bands3 b r z !! "b" = Some b.
Proof. unfold bands3. by simplify_map_eq. Qed.
Lemma bands3_r {A} (b r z : A) : bands3 b r z !! "r" = Some r.
Proof. unfold bands3. by simplify_map_eq. Qed.
Lemma bands3_z {A} (b r z : A) : bands3 b r z !! "z" = Some z.
Proof. unfold bands3. by simplify_map_eq. Qed.

Lemma getkey_b {A} (b r z : A) : getkey (bands3 b r z) "b" = Ok b.
Proof. unfold getkey. by rewrite bands3_b. Qed.
Lemma getkey_r {A} (b r z : A) : getkey (bands3 b r z) "r" = Ok r.
Proof. unfold getkey. by rewrite bands3_r. Qed.
Lemma getkey_z {A} (b r z : A) : getkey (bands3 b r z) "z" = Ok z.
Proof. unfold getkey. by rewrite bands3_z. Qed.

Lemma getlast_Fin l x : last l = Some x → getlast (Fin <$> l) = Ok (Fin x).
Proof. intros H. unfold getlast. by rewrite fmap_last, H. Qed.

Lemma getitem_0_Fin l x : head l = Some x → getitem (Fin <$> l) 0 = Ok (Fin x).
Proof.
  intros H. unfold getitem. by rewrite list_lookup_fmap, <- head_lookup, H.
Qed.

Lemma br_split_ok b r z bl r0 :
  last b = Some bl → head r = Some r0 →
  br_split (bands3 (Fin <$> b) (Fin <$> r) (Fin <$> z))
  = Ok (Fin (midpoint bl r0)).
Proof.
  intros Hb Hr. unfold br_split. rewrite getkey_b, getkey_r.
  cbn [mbind result_bind]. rewrite (getlast_Fin _ _ Hb).
  cbn [mbind result_bind]. by rewrite (getitem_0_Fin _ _ Hr).
Qed.

Lemma rz_split_ok b r z rl z0 :
  last r = Some rl → head z = Some z0 →
  rz_split (bands3 (Fin <$> b) (Fin <$> r) (Fin <$> z))
  = Ok (Fin (midpoint rl z0)).
Proof.
  intros Hr Hz. unfold rz_split. rewrite getkey_r, getkey_z.
  cbn [mbind result_bind]. rewrite (getlast_Fin _ _ Hr).
  cbn [mbind result_bind]. by rewrite (getitem_0_Fin _ _ Hz).
Qed.

(** A boolean mask computed from the grid selects what [filter] keeps. *)
Lemma select_kept {A} (P : Qc → Prop) `{∀ x, Decision (P x)}
    (pb : float64 → bool) :
  (∀ x, pb (Fin x) = bool_decide (P x)) →
  ∀ (w : list Qc) (f : list A), length w = length f →
    select_ (pb <$> (Fin <$> w)) f = kept P w f.
Proof.
  intros Hpb. unfold kept.
  induction w as [|x w IH]; intros [|y f] L; simpl in *; try done.
  rewrite Hpb. rewrite filter_cons. simpl.
  destruct (decide (P x)) as [HP|HP].
  - rewrite bool_decide_eq_true_2 by done. simpl. f_equal. apply IH. lia.
  - rewrite bool_decide_eq_false_2 by done. apply IH. lia.
Qed.

Lemma select_grid (P : Qc → Prop) `{∀ x, Decision (P x)}
    (pb : float64 → bool) :
  (∀ x, pb (Fin x) = bool_decide (P x)) →
  ∀ w : list Qc,
    select_ (pb <$> (Fin <$> w)) (Fin <$> w) = Fin <$> filter P w.
Proof.
  intros Hpb. induction w as [|x w IH]; simpl; [done|].
  rewrite Hpb, filter_cons.
  destruct (decide (P x)) as [HP|HP].
  - rewrite bool_decide_eq_true_2 by done. simpl. by f_equal.
  - by rewrite bool_decide_eq_false_2.
Qed.

Lemma zip_with_fmap_same {A B C D} (f : B → C → D) (g : A → B) (k : A → C)
    (l : list A) :
  zip_with f (g <$> l) (k <$> l) = (λ x, f (g x) (k x)) <$> l.
Proof. induction l; simpl; by f_equal. Qed.

Lemma select_ok {A} (m : list bool) (a : list A) :
  length m = length a → select m a = Ok (select_ m a).
Proof. intros H. unfold select. by rewrite decide_True. Qed.

Lemma rows_select_ok (m : list bool) n (a : array2) :
  has_shape2 n (length m) a →
  rows (select m) a = Ok (select_ m <$> a).
Proof.
  intros [_ Ha]. apply rows_ok. eapply Forall_impl; [done|]. simpl.
  intros r Hr. by apply select_ok.
Qed.

Lemma StronglySorted_filter {A} (R : relation A) (P : A → Prop)
    `{∀ x, Decision (P x)} (l : list A) :
  StronglySorted R l → StronglySorted R (filter P l).
Proof.
  induction 1 as [|x l Hl IH Hx]; [constructor|].
  rewrite filter_cons. case_decide; [|done].
  constructor; [done|].
  apply Forall_forall. intros y [_ Hy]%list_elem_of_filter.
  by eapply Forall_forall in Hx.
Qed.

Lemma StronglySorted_NoDup {A} (R : relation A) `{!Irreflexive R}
    (l : list A) :
  StronglySorted R l → NoDup l.
Proof.
  induction 1 as [|x l Hl IH Hx]; constructor; [|done].
  intros Hin. eapply Forall_forall in Hx; [|done].
  by apply (irreflexivity R x).
Qed.

Lemma midpoint_le a b c d :
  (a <= c)%Qc → (b <= d)%Qc → (midpoint a b <= midpoint c d)%Qc.
Proof.
  intros H1 H2. unfold midpoint.
  apply Qcmult_le_mono_nonneg_l; [done|].
  by apply Qcplus_le_compat.
Qed.

(** On three non-empty grids and model fluxes of matching shapes
    [create_model] returns the merged grid and the merged rows. *)
Lemma create_model_ok b r z bl r0 rl z0 (fb fr fz : array2) n :
  last b = Some bl → head r = Some r0 →
  last r = Some rl → head z = Some z0 →
  has_shape2 n (length b) fb → has_shape2 n (length r) fr →
  has_shape2 n (length z) fz →
  let br := midpoint bl r0 in
  let rz := midpoint rl z0 in
  create_model (bands3 (Fin <$> b) (Fin <$> r) (Fin <$> z))
    (bands3 fb fr fz)
  = Ok (Fin <$> merged_grid b r z br rz,
        zip_with app (kept (λ x, x < br)%Qc b <$> fb)
          (zip_with app (kept (λ x, br <= x ∧ x < rz)%Qc r <$> fr)
             (kept (λ x, rz <= x)%Qc z <$> fz))).
Proof.
  intros Hb Hr0 Hrl Hz Sb Sr Sz br rz. unfold create_model.
  cbn [forallb]. rewrite bands3_b, bands3_r, bands3_z.
  rewrite !bool_decide_eq_true_2 by by eexists.
  cbn [andb negb].
  rewrite (br_split_ok b r z bl r0), (rz_split_ok b r z rl z0) by done.
  cbn [mbind result_bind]. fold br rz.
  rewrite !getkey_b, !getkey_r, !getkey_z. cbn [mbind result_bind].
  rewrite zip_with_fmap_same.
  set (pb := λ x, fltb x (Fin br)).
  set (pr := λ x, fleb (Fin br) x && fltb x (Fin rz)).
  set (pz := λ x, fleb (Fin rz) x).
  assert (∀ x, pb (Fin x) = bool_decide (x < br)%Qc) as Hpb by done.
  assert (∀ x, pr (Fin x) = bool_decide (br <= x ∧ x < rz)%Qc) as Hpr.
  { intros x. unfold pr. simpl. by rewrite bool_decide_and. }
  assert (∀ x, pz (Fin x) = bool_decide (rz <= x)%Qc) as Hpz by done.
  rewrite !select_ok by (by rewrite !length_fmap).
  cbn [mbind result_bind].
  rewrite (select_grid _ pb Hpb), (select_grid _ pr Hpr),
    (select_grid _ pz Hpz).
  rewrite (rows_select_ok _ n), (rows_select_ok _ n), (rows_select_ok _ n)
    by (by rewrite !length_fmap).
  cbn [mbind result_bind].
  unfold concatenate_axis1. rewrite decide_True.
  2:{ rewrite !length_fmap. destruct Sb, Sr, Sz. lia. }
  cbn [mbind result_bind]. f_equal. f_equal.
  - unfold merged_grid. by rewrite !fmap_app.
  - destruct Sb as [_ Sb], Sr as [_ Sr], Sz as [_ Sz].
    f_equal; [|f_equal]; apply Forall_fmap_ext_1;
      (eapply Forall_impl; [done|]); simpl; intros f Hf;
      by apply select_kept.
Qed.

End StitchFacts.
(** * Facts about targets with one exposure *)

Module PassThroughFacts.
Import NP Coadd Heap CoaddTargets CoaddSpec CoaddFacts HeapSpec HeapFacts.
Import PassThroughSpec.

(** *** Running the heap primitives *)

Lemma bind_run {A B} (m : M A) (f : A → M B) h h' a :
  m h = (h', Ok a) → (m ≫= f) h = f a h'.
Proof. intros H. unfold mbind, M_bind. by rewrite H. Qed.

Lemma load1_run h l w : h !! l = Some (F1 w) → load1 l h = (h, Ok w).
Proof. intros H. unfold load1, load, mbind, M_bind. by rewrite H. Qed.

Lemma load2_run h l a : h !! l = Some (F2 a) → load2 l h = (h, Ok a).
Proof. intros H. unfold load2, load, mbind, M_bind. by rewrite H. Qed.

Lemma load3_run h l a : h !! l = Some (F3 a) → load3 l h = (h, Ok a).
Proof. intros H. unfold load3, load, mbind, M_bind. by rewrite H. Qed.

Lemma loadm_run h l a : h !! l = Some (I2 a) → loadm l h = (h, Ok a).
Proof. intros H. unfold loadm, load, mbind, M_bind. by rewrite H. Qed.

Lemma getkey_ok {V} (d : gmap string V) k v :
  d !! k = Some v → getkey d k = Ok v.
Proof. intros H. unfold getkey. by rewrite H. Qed.

Lemma getitem_ok {A} (a : list A) i x : a !! i = Some x → getitem a i = Ok x.
Proof. intros H. unfold getitem. by rewrite H. Qed.

Lemma view2_run h l a i x :
  h !! l = Some (F2 a) → a !! i = Some x → view2 l i h = (h, Ok (View l i)).
Proof.
  intros H Hi. unfold view2. rewrite (bind_run _ _ _ _ _ (load2_run _ _ _ H)).
  by rewrite (getitem_ok _ _ _ Hi).
Qed.

Lemma view3_run h l a i x :
  h !! l = Some (F3 a) → a !! i = Some x → view3 l i h = (h, Ok (View l i)).
Proof.
  intros H Hi. unfold view3. rewrite (bind_run _ _ _ _ _ (load3_run _ _ _ H)).
  by rewrite (getitem_ok _ _ _ Hi).
Qed.

Lemma viewm_run h l a i x :
  h !! l = Some (I2 a) → a !! i = Some x → viewm l i h = (h, Ok (View l i)).
Proof.
  intros H Hi. unfold viewm. rewrite (bind_run _ _ _ _ _ (loadm_run _ _ _ H)).
  by rewrite (getitem_ok _ _ _ Hi).
Qed.

Lemma read2_run h l a i x :
  h !! l = Some (F2 a) → a !! i = Some x → read2 (View l i) h = (h, Ok x).
Proof.
  intros H Hi. unfold read2. rewrite (bind_run _ _ _ _ _ (load2_run _ _ _ H)).
  by rewrite (getitem_ok _ _ _ Hi).
Qed.

Lemma read3_run h l a i x :
  h !! l = Some (F3 a) → a !! i = Some x → read3 (View l i) h = (h, Ok x).
Proof.
  intros H Hi. unfold read3. rewrite (bind_run _ _ _ _ _ (load3_run _ _ _ H)).
  by rewrite (getitem_ok _ _ _ Hi).
Qed.

Lemma readm_run h l a i x :
  h !! l = Some (I2 a) → a !! i = Some x → readm (View l i) h = (h, Ok x).
Proof.
  intros H Hi. unfold readm. rewrite (bind_run _ _ _ _ _ (loadm_run _ _ _ H)).
  by rewrite (getitem_ok _ _ _ Hi).
Qed.

Lemma assign1_ok {A} (t v : list A) :
  length t = length v → assign1 t v = Ok v.
Proof. intros H. unfold assign1. by rewrite decide_True. Qed.

Lemma assign_rows_ok {A} (t v : list (list A)) :
  Forall2 (λ r s, length r = length s) t v → assign_rows t v = Ok v.
Proof.
  induction 1 as [|r s t v Hrs _ IH]; simpl; [done|].
  by rewrite assign1_ok, IH.
Qed.

Lemma assign2_ok {A} (t v : list (list A)) :
  Forall2 (λ r s, length r = length s) t v → assign2 t v = Ok v.
Proof.
  intros H. unfold assign2.
  rewrite decide_True by by eapply Forall2_length.
  by apply assign_rows_ok.
Qed.

Lemma setrow2_run h l a i t v :
  h !! l = Some (F2 a) → a !! i = Some t → length t = length v →
  setrow2 l i v h = (<[l:=F2 (<[i:=v]> a)]> h, Ok ()).
Proof.
  intros H Hi L. unfold setrow2.
  rewrite (bind_run _ _ _ _ _ (load2_run _ _ _ H)).
  rewrite (getitem_ok _ _ _ Hi). unfold lift, mbind, M_bind.
  by rewrite (assign1_ok _ _ L).
Qed.

Lemma setrow3_run h l a i t v :
  h !! l = Some (F3 a) → a !! i = Some t →
  Forall2 (λ r s, length r = length s) t v →
  setrow3 l i v h = (<[l:=F3 (<[i:=v]> a)]> h, Ok ()).
Proof.
  intros H Hi L. unfold setrow3.
  rewrite (bind_run _ _ _ _ _ (load3_run _ _ _ H)).
  rewrite (getitem_ok _ _ _ Hi). unfold lift, mbind, M_bind.
  by rewrite (assign2_ok _ _ L).
Qed.

Lemma setrowm_run h l a i t v :
  h !! l = Some (I2 a) → a !! i = Some t → length t = length v →
  setrowm l i v h = (<[l:=I2 (<[i:=v]> a)]> h, Ok ()).
Proof.
  intros H Hi L. unfold setrowm.
  rewrite (bind_run _ _ _ _ _ (loadm_run _ _ _ H)).
  rewrite (getitem_ok _ _ _ Hi). unfold lift, mbind, M_bind.
  by rewrite (assign1_ok _ _ L).
Qed.

(** *** Rows copied so far *)

Lemma mix_0 {A} n (z : A) a : mix n 0 z a = replicate n z.
Proof. unfold mix. by rewrite take_0, Nat.sub_0_r. Qed.

Lemma mix_all {A} n (z : A) a : length a = n → mix n n z a = a.
Proof.
  intros <-. unfold mix.
  by rewrite firstn_all, Nat.sub_diag, app_nil_r.
Qed.

Lemma mix_lookup {A} n k (z : A) a :
  length a = n → k < n → mix n k z a !! k = Some z.
Proof.
  intros La Hk. unfold mix. rewrite lookup_app_r; rewrite length_take; [|lia].
  apply lookup_replicate_2. lia.
Qed.

Lemma mix_step {A} n k (z x : A) a :
  length a = n → a !! k = Some x →
  <[k:=x]> (mix n k z a) = mix n (S k) z a.
Proof.
  intros La Hk. pose proof (lookup_lt_Some _ _ _ Hk) as Hlt. unfold mix.
  rewrite (take_S_r _ _ _ Hk).
  replace (n - k) with (S (n - S k)) by lia. simpl.
  rewrite <- app_assoc. simpl.
  replace k with (length (take k a) + 0) at 1 by (rewrite length_take; lia).
  by rewrite insert_app_r.
Qed.

Lemma lift_bind_ok {A B} (r : result A) (f : A → M B) a h :
  r = Ok a → (lift r ≫= f) h = f a h.
Proof. by intros ->. Qed.

Lemma ret_bind_run {A B} (a : A) (f : A → M B) h : (mret a ≫= f) h = f a h.
Proof. done. Qed.

Lemma has_shape2_lookup n m (a : array2) k :
  has_shape2 n m a → k < n → ∃ r, a !! k = Some r ∧ length r = m.
Proof.
  intros [La Fa] Hk. destruct (a !! k) as [r|] eqn:E.
  - exists r. split; [done|]. by eapply (Forall_lookup_1 _ _ _ _ Fa).
  - apply lookup_ge_None in E. lia.
Qed.

Lemma has_shape3_lookup n d m (a : array3) k :
  has_shape3 n d m a → k < n → ∃ r, a !! k = Some r ∧ has_shape2 d m r.
Proof.
  intros [La Fa] Hk. destruct (a !! k) as [r|] eqn:E.
  - exists r. split; [done|]. by eapply (Forall_lookup_1 _ _ _ _ Fa).
  - apply lookup_ge_None in E. lia.
Qed.

Lemma has_shape3_ndiag n d d' m m' (a : array3) :
  has_shape3 n d m a → has_shape3 n d' m' a → 0 < n → d = d'.
Proof.
  intros [La Fa] [_ Fa'] Hn. destruct a as [|r a]; simpl in *; [lia|].
  inversion Fa as [|? ? [H1 _] _]. inversion Fa' as [|? ? [H2 _] _]. congruence.
Qed.

(** The arrays of a band are determined by the heap. *)
Lemma band_in_fun spectra h n ch a a' :
  band_in spectra h n ch a → band_in spectra h n ch a' →
  ba_wave a = ba_wave a' ∧ ba_flux a = ba_flux a' ∧ ba_ivar a = ba_ivar a' ∧
  ba_rdat a = ba_rdat a' ∧ (0 < n → ba_ndiag a = ba_ndiag a') ∧
  (is_Some (mask spectra) → ba_mask a = ba_mask a').
Proof.
  intros ((lw & Hlw & Hw) & (lf & Hlf & Hf) & (lv & Hlv & Hv) &
          (lr & Hlr & Hr) & Sf & Sv & Sr & Hmask)
         ((lw' & Hlw' & Hw') & (lf' & Hlf' & Hf') & (lv' & Hlv' & Hv') &
          (lr' & Hlr' & Hr') & Sf' & Sv' & Sr' & Hmask').
  assert (ba_wave a = ba_wave a') as Ew by congruence.
  assert (ba_flux a = ba_flux a') as Ef by congruence.
  assert (ba_ivar a = ba_ivar a') as Ev by congruence.
  assert (ba_rdat a = ba_rdat a') as Er by congruence.
  split_and!; try done.
  - intros Hn. rewrite Er in Sr. by eapply has_shape3_ndiag.
  - intros [dm Hdm].
    destruct (Hmask dm Hdm) as (lm & Hlm & Hm & _).
    destruct (Hmask' dm Hdm) as (lm' & Hlm' & Hm' & _). congruence.
Qed.

Lemma insert_other (h : heap) l l' x y :
  l ≠ l' → h !! l = Some x → <[l':=y]> h !! l = Some x.
Proof. intros Hne H. by rewrite list_lookup_insert_ne. Qed.

Lemma insert_same (h : heap) l x y :
  h !! l = Some x → <[l:=y]> h !! l = Some y.
Proof.
  intros H. apply list_lookup_insert_eq. by eapply lookup_lt_Some.
Qed.

(** The layout after the rows [k] of the band at position [jp] were
    copied. *)
Lemma layout_step spectra h0 h h' k jp ch a :
  let D := length h0 in
  let s := stride spectra in
  let n := length (fibermap spectra) in
  let m := length (ba_wave a) in
  layout spectra h0 (bands spectra) h k jp →
  bands spectra !! jp = Some ch → band_in spectra h0 n ch a → k < n →
  length h' = length h →
  (∀ l, l ≠ D + s * jp + 1 → l ≠ D + s * jp + 2 → l ≠ D + s * jp + 3 →
        (is_Some (mask spectra) → l ≠ D + s * jp + 4) →
        h' !! l = h !! l) →
  h' !! (D + s * jp + 1) = Some (F2 (mix n (S k) (zeros m) (ba_flux a))) →
  h' !! (D + s * jp + 2) = Some (F2 (mix n (S k) (zeros m) (ba_ivar a))) →
  h' !! (D + s * jp + 3)
  = Some (F3 (mix n (S k) (zeros2 (ba_ndiag a, m)) (ba_rdat a))) →
  (is_Some (mask spectra) →
   h' !! (D + s * jp + 4)
   = Some (I2 (mix n (S k) (replicate m 0%Z) (ba_mask a)))) →
  layout spectra h0 (bands spectra) h' k (S jp).
Proof.
  intros D s n m (Hold & Hlen & Hlay) Hjp Ha Hk Hlen' Hskip Cf Cv Cr Cm.
  assert ((s = 4 ∨ s = 5) ∧ (is_Some (mask spectra) → s = 5)) as [Hs4 Hs5].
  { unfold s, stride.
    destruct (mask spectra); split; auto; by intros [? ?]. }
  split_and!.
  - intros l Hl. fold D in Hl.
    rewrite Hskip by (intros; lia). by apply Hold.
  - by rewrite Hlen'.
  - intros j ch' a' Hj Ha'. fold D s n. cbv zeta.
    destruct (decide (j = jp)) as [->|Hne].
    + assert (ch' = ch) as -> by congruence.
      destruct (band_in_fun _ _ _ _ _ _ Ha Ha')
        as (Ew & Ef & Ev & Er & Ed & Ek).
      rewrite <- Ew, <- Ef, <- Ev, <- Er, <- Ed by lia.
      rewrite decide_True by lia. fold m. split_and!; try done.
      * rewrite Hskip by (intros; lia).
        by destruct (Hlay jp ch a Hjp Ha) as (Cw & _).
      * intros Hm. rewrite <- Ek by done. by apply Cm.
    + destruct (Hlay j ch' a' Hj Ha') as (Cw' & Cf' & Cv' & Cr' & Cm').
      replace (if decide (j < S jp) then S k else k)
        with (if decide (j < jp) then S k else k)
        by (repeat case_decide; done || lia).
      split_and!;
        [rewrite Hskip
           by (intros; try (rewrite Hs5 by assumption; lia);
               destruct Hs4 as [Hs|Hs]; rewrite Hs; lia); done..|].
      intros Hm. specialize (Hs5 Hm).
      rewrite Hskip by (intros; rewrite Hs5; lia). by apply Cm'.
Qed.

(** The pass-through branch for target [k] and the band at position [jp]:
    the rows [k] of the input arrays go to the rows [k] of the output
    arrays. *)
Lemma coadd_channel_single spectra h0 o h k jp ch :
  dicts_ready spectra (length h0) (bands spectra) o →
  layout spectra h0 (bands spectra) h k jp →
  (∀ ch, ch ∈ bands spectra →
     ∃ a, band_in spectra h0 (length (fibermap spectra)) ch a) →
  bands spectra !! jp = Some ch → k < length (fibermap spectra) →
  ∃ h', coadd_channel spectra o k [k] ch () h = (h', Ok ()) ∧
        layout spectra h0 (bands spectra) h' k (S jp).
Proof.
  intros [Hd Hdm] Hlayout Hin Hjp Hk.
  pose proof Hlayout as (Hold & Hlen & Hlay).
  set (n := length (fibermap spectra)) in *.
  set (D := length h0) in *. set (s := stride spectra) in *.
  destruct (Hin ch) as [a Ha]; [by eapply list_elem_of_lookup_2|].
  pose proof Ha as ((lw & Hlw & Hw) & (lf & Hlf & Hf) & (lv & Hlv & Hv) &
                    (lr & Hlr & Hr) & Sf & Sv & Sr & Hmask).
  destruct (Hlay jp ch a Hjp Ha) as (Cw & Cf & Cv & Cr & Cm).
  rewrite decide_False in Cf, Cv, Cr, Cm by lia.
  destruct (Hd jp ch Hjp) as (Dw & Df & Dv & Dr).
  set (m := length (ba_wave a)) in *.
  destruct (has_shape2_lookup n m _ k Sf Hk) as (fk & Hfk & Lfk).
  destruct (has_shape2_lookup n m _ k Sv Hk) as (vk & Hvk & Lvk).
  destruct (has_shape3_lookup n _ m _ k Sr Hk) as (rk & Hrk & Srk).
  assert (∀ l x, h0 !! l = Some x → h !! l = Some x) as Hin0.
  { intros l x Hl. rewrite Hold; [done|]. by eapply lookup_lt_Some. }
  assert (lf < D ∧ lv < D ∧ lr < D) as (? & ? & ?)
    by (split_and!; by eapply lookup_lt_Some).
  apply Hin0 in Hw, Hf, Hv, Hr.
  destruct Sf as [Lf _], Sv as [Lv _], Sr as [Lr _].
  assert (length (zeros m) = m) as Lz
    by (unfold zeros; by rewrite length_replicate).
  set (h1 := <[D + s * jp + 1:=F2 (<[k:=fk]>
                (mix n k (zeros m) (ba_flux a)))]> h).
  set (h2 := <[D + s * jp + 2:=F2 (<[k:=vk]>
                (mix n k (zeros m) (ba_ivar a)))]> h1).
  set (h3 := <[D + s * jp + 3:=F3 (<[k:=rk]>
                (mix n k (zeros2 (ba_ndiag a, m)) (ba_rdat a)))]> h2).
  assert (h3 !! (D + s * jp + 1)
          = Some (F2 (mix n (S k) (zeros m) (ba_flux a)))) as Cf3.
  { unfold h3, h2. rewrite !list_lookup_insert_ne by lia.
    unfold h1. rewrite (insert_same _ _ _ _ Cf).
    by rewrite (mix_step n k _ fk). }
  assert (h3 !! (D + s * jp + 2)
          = Some (F2 (mix n (S k) (zeros m) (ba_ivar a)))) as Cv3.
  { unfold h3. rewrite !list_lookup_insert_ne by lia.
    unfold h2. erewrite insert_same; [|apply insert_other; [lia|done]].
    by rewrite (mix_step n k _ vk). }
  assert (h3 !! (D + s * jp + 3)
          = Some (F3 (mix n (S k) (zeros2 (ba_ndiag a, m)) (ba_rdat a))))
    as Cr3.
  { unfold h3. erewrite insert_same;
      [|do 2 (apply insert_other; [lia|]); done].
    by rewrite (mix_step n k _ rk). }
  assert (∀ l, l ≠ D + s * jp + 1 → l ≠ D + s * jp + 2 →
               l ≠ D + s * jp + 3 → h3 !! l = h !! l) as Hskip3.
  { intros l ? ? ?. unfold h3, h2, h1.
    by rewrite !list_lookup_insert_ne by lia. }
  assert (∀ (rest : M ()) out,
            rest h3 = out →
            (get2 (Old (View lf k)) ≫= λ x,
             lift (getkey (o_flux o) ch) ≫= λ lf',
             setrow2 lf' k x ≫= λ _,
             get2 (Old (View lv k)) ≫= λ x0,
             lift (getkey (o_ivar o) ch) ≫= λ li',
             setrow2 li' k x0 ≫= λ _,
             get3 (Old (View lr k)) ≫= λ x1,
             lift (getkey (o_rdat o) ch) ≫= λ lr',
             setrow3 lr' k x1 ≫= λ _, rest) h = out) as Hrun.
  { intros rest out <-.
    rewrite (bind_run _ _ _ _ _ (read2_run _ _ _ _ _ Hf Hfk)).
    rewrite (lift_bind_ok _ _ _ _ (getkey_ok _ _ _ Df)).
    rewrite (bind_run _ _ _ h1 ());
      [|apply (setrow2_run _ _ _ _ (zeros m));
        [done|by apply mix_lookup|congruence]].
    rewrite (bind_run _ _ _ h1 vk);
      [|eapply read2_run; [|done]; apply insert_other; [lia|done]].
    rewrite (lift_bind_ok _ _ _ _ (getkey_ok _ _ _ Dv)).
    rewrite (bind_run _ _ _ h2 ());
      [|apply (setrow2_run _ _ _ _ (zeros m));
        [apply insert_other; [lia|done]|by apply mix_lookup|congruence]].
    rewrite (bind_run _ _ _ h2 rk);
      [|eapply read3_run; [|done];
        do 2 (apply insert_other; [lia|]); done].
    rewrite (lift_bind_ok _ _ _ _ (getkey_ok _ _ _ Dr)).
    rewrite (bind_run _ _ _ h3 ()); [done|].
    apply (setrow3_run _ _ _ _ (zeros2 (ba_ndiag a, m)));
      [do 2 (apply insert_other; [lia|]); done|by apply mix_lookup|
       eapply has_shape2_same_lengths; [apply has_shape2_zeros2|done]]. }
  unfold coadd_channel. rewrite decide_False by (simpl; lia).
  destruct (mask spectra) as [dm|] eqn:Em.
  - destruct Hdm as (dm' & Edm' & Hdm').
    destruct (Hmask dm eq_refl) as (lm & Hlm & Hm & Lm & Fm).
    pose proof (lookup_lt_Some _ _ _ Hm) as Hlm_lt. apply Hin0 in Hm.
    specialize (Cm ltac:(by eexists)). specialize (Hdm' jp ch Hjp).
    assert (∃ mk, ba_mask a !! k = Some mk ∧ length mk = m) as (mk & Hmk & Lmk).
    { destruct (ba_mask a !! k) as [mk|] eqn:E.
      - exists mk. split; [done|]. by eapply (Forall_lookup_1 _ _ _ _ Fm).
      - apply lookup_ge_None in E. lia. }
    assert (s = 5) as Es by (unfold s, stride; by rewrite Em).
    rewrite Edm'.
    erewrite bind_run; cycle 1.
    { rewrite (lift_bind_ok _ _ _ _ (getkey_ok _ _ _ Hlw)).
      rewrite (bind_run _ _ _ _ _ (load1_run _ _ _ Hw)).
      rewrite (lift_bind_ok _ _ _ _ (getkey_ok _ _ _ Hlf)).
      rewrite (lift_bind_ok _ _ k _ eq_refl).
      rewrite (bind_run _ _ _ _ _ (view2_run _ _ _ _ _ Hf Hfk)).
      rewrite (lift_bind_ok _ _ _ _ (getkey_ok _ _ _ Hlv)).
      rewrite (bind_run _ _ _ _ _ (view2_run _ _ _ _ _ Hv Hvk)).
      rewrite (lift_bind_ok _ _ _ _ (getkey_ok _ _ _ Hlr)).
      rewrite (bind_run _ _ _ _ _ (view3_run _ _ _ _ _ Hr Hrk)).
      erewrite bind_run; [reflexivity|].
      rewrite (lift_bind_ok _ _ dm _ eq_refl).
      rewrite (lift_bind_ok _ _ _ _ (getkey_ok _ _ _ Hlm)).
      rewrite (bind_run _ _ _ _ _ (viewm_run _ _ _ _ _ Hm Hmk)).
      reflexivity. }
    cbv beta iota.
    set (h4 := <[D + s * jp + 4:=I2 (<[k:=mk]>
                  (mix n k (replicate m 0%Z) (ba_mask a)))]> h3).
    exists h4. split.
    + apply Hrun.
      rewrite (bind_run _ _ _ h3 mk);
        [|eapply readm_run; [|done]; rewrite Hskip3 by lia; done].
      rewrite (lift_bind_ok _ _ _ _ (getkey_ok _ _ _ Hdm')).
      apply (setrowm_run _ _ _ _ (replicate m 0%Z));
        [rewrite Hskip3 by lia; done|by apply mix_lookup|
         rewrite length_replicate; congruence].
    + apply (layout_step spectra h0 h h4 k jp ch a); try done.
      * unfold h4, h3, h2, h1. by rewrite !length_insert.
      * intros l ? ? ? Hl4. specialize (Hl4 ltac:(by eexists)).
        unfold h4. rewrite list_lookup_insert_ne by done.
        by apply Hskip3.
      * unfold h4. by rewrite list_lookup_insert_ne by lia.
      * unfold h4. by rewrite list_lookup_insert_ne by lia.
      * unfold h4. by rewrite list_lookup_insert_ne by lia.
      * intros _. unfold h4. erewrite insert_same;
          [|rewrite Hskip3 by lia; done].
        by rewrite (mix_step n k _ mk).
  - rewrite Hdm.
    erewrite bind_run; cycle 1.
    { rewrite (lift_bind_ok _ _ _ _ (getkey_ok _ _ _ Hlw)).
      rewrite (bind_run _ _ _ _ _ (load1_run _ _ _ Hw)).
      rewrite (lift_bind_ok _ _ _ _ (getkey_ok _ _ _ Hlf)).
      rewrite (lift_bind_ok _ _ k _ eq_refl).
      rewrite (bind_run _ _ _ _ _ (view2_run _ _ _ _ _ Hf Hfk)).
      rewrite (lift_bind_ok _ _ _ _ (getkey_ok _ _ _ Hlv)).
      rewrite (bind_run _ _ _ _ _ (view2_run _ _ _ _ _ Hv Hvk)).
      rewrite (lift_bind_ok _ _ _ _ (getkey_ok _ _ _ Hlr)).
      rewrite (bind_run _ _ _ _ _ (view3_run _ _ _ _ _ Hr Hrk)).
      reflexivity. }
    cbv beta iota.
    exists h3. split; [by apply Hrun|].
    apply (layout_step spectra h0 h h3 k jp ch a); try done.
    + unfold h3, h2, h1. by rewrite !length_insert.
    + intros l ? ? ? _. by apply Hskip3.
    + intros [? ?]. congruence.
Qed.

(** The loop over the bands, for a target with one exposure. *)
Lemma coadd_channels_single spectra h0 o k :
  dicts_ready spectra (length h0) (bands spectra) o →
  (∀ ch, ch ∈ bands spectra →
     ∃ a, band_in spectra h0 (length (fibermap spectra)) ch a) →
  k < length (fibermap spectra) →
  ∀ suf pre h,
    bands spectra = pre ++ suf →
    layout spectra h0 (bands spectra) h k (length pre) →
    ∃ h', for_M suf (coadd_channel spectra o k [k]) () h = (h', Ok ()) ∧
          layout spectra h0 (bands spectra) h' k (length (bands spectra)).
Proof.
  intros Hd Hin Hk. induction suf as [|ch suf IH]; intros pre h Hb Hlay.
  - exists h. split; [done|].
    assert (length pre = length (bands spectra)) as <-
      by (by rewrite Hb, app_nil_r).
    done.
  - assert (bands spectra !! length pre = Some ch) as Hch
      by (rewrite Hb; by apply list_lookup_middle).
    destruct (coadd_channel_single spectra h0 o h k (length pre) ch)
      as (h1 & Hrun & Hlay1); try done.
    destruct (IH (pre ++ [ch]) h1) as (h' & Hrun' & Hlay').
    + by rewrite <- app_assoc.
    + rewrite length_app. simpl. by rewrite Nat.add_1_r.
    + exists h'. split; [|done].
      rewrite for_M_cons, Hrun. done.
Qed.

Lemma layout_next spectra h0 h k :
  layout spectra h0 (bands spectra) h k (length (bands spectra)) →
  layout spectra h0 (bands spectra) h (S k) 0.
Proof.
  intros (Hold & Hlen & Hlay). split_and!; try done.
  intros j ch a Hj Ha. specialize (Hlay j ch a Hj Ha). cbv zeta in *.
  rewrite decide_True in Hlay by by eapply lookup_lt_Some.
  by rewrite decide_False by lia.
Qed.

Lemma where_from_single : ∀ (c : list bool) i k,
  c !! k = Some true → (∀ j, j ≠ k → c !! j = Some true → False) →
  where_from i c = [i + k].
Proof.
  induction c as [|b c IH]; intros i [|k] Hk Hother; simpl in *; try done.
  - injection Hk as ->. rewrite Nat.add_0_r. f_equal.
    apply where_from_none, Forall_forall. intros b Hb.
    apply list_elem_of_lookup in Hb as [j Hj]. destruct b; [|done].
    destruct (Hother (S j)); [lia|done].
  - destruct b; [destruct (Hother 0); [lia|done]|].
    rewrite (IH (S i) k); [f_equal; lia|done|].
    intros j Hj Hc. apply (Hother (S j)); [lia|done].
Qed.

(** The rows of a target that has one row. *)
Lemma where_single (fm : list fibermap_row) k row :
  NoDup (TARGETID <$> fm) → fm !! k = Some row →
  where_ ((λ r, bool_decide (TARGETID r = TARGETID row)) <$> fm) = [k].
Proof.
  intros Hnd Hk. unfold where_.
  rewrite (where_from_single _ 0 k); [done|..].
  - by rewrite list_lookup_fmap, Hk; simpl; rewrite bool_decide_eq_true_2.
  - intros j Hj. rewrite list_lookup_fmap.
    destruct (fm !! j) as [r|] eqn:Er; simpl; [|done].
    intros [= Heq%bool_decide_eq_true]. apply Hj.
    eapply (NoDup_lookup _ j k (TARGETID r)); [done|..].
    + by rewrite list_lookup_fmap, Er.
    + by rewrite list_lookup_fmap, Hk; simpl; rewrite Heq.
Qed.

(** One target with one exposure. *)
Lemma coadd_target_single spectra h0 o h k row fm :
  dicts_ready spectra (length h0) (bands spectra) o →
  (∀ ch, ch ∈ bands spectra →
     ∃ a, band_in spectra h0 (length (fibermap spectra)) ch a) →
  NoDup (TARGETID <$> fibermap spectra) →
  fibermap spectra !! k = Some row →
  layout spectra h0 (bands spectra) h k 0 →
  ∃ h', coadd_target spectra o (k, TARGETID row) fm h = (h', Ok (fm ++ [row])) ∧
        layout spectra h0 (bands spectra) h' (S k) 0.
Proof.
  intros Hd Hin Hnd Hrow Hlay. unfold coadd_target.
  rewrite (where_single _ k row Hnd Hrow).
  rewrite (lift_bind_ok _ _ k _ eq_refl).
  rewrite (lift_bind_ok _ _ _ _ (getitem_ok _ _ _ Hrow)).
  destruct (coadd_channels_single spectra h0 o k Hd Hin
              ltac:(by eapply lookup_lt_Some) (bands spectra) [] h)
    as (h' & Hrun & Hlay'); [done|done|].
  exists h'. split; [|by apply layout_next].
  by rewrite (bind_run _ _ _ _ _ Hrun).
Qed.

(** The loop over the targets, when each has one exposure. *)
Lemma coadd_targets_loop_single spectra h0 o :
  dicts_ready spectra (length h0) (bands spectra) o →
  (∀ ch, ch ∈ bands spectra →
     ∃ a, band_in spectra h0 (length (fibermap spectra)) ch a) →
  NoDup (TARGETID <$> fibermap spectra) →
  ∀ suf pre fm h,
    fibermap spectra = pre ++ suf →
    layout spectra h0 (bands spectra) h (length pre) 0 →
    ∃ h', for_M (zip (seq (length pre) (length suf)) (TARGETID <$> suf))
            (coadd_target spectra o) fm h = (h', Ok (fm ++ suf)) ∧
          layout spectra h0 (bands spectra) h'
            (length (fibermap spectra)) 0.
Proof.
  intros Hd Hin Hnd. induction suf as [|row suf IH]; intros pre fm h Hb Hlay.
  - exists h. split; [by rewrite app_nil_r|].
    assert (length pre = length (fibermap spectra)) as <-
      by (by rewrite Hb, app_nil_r).
    done.
  - assert (fibermap spectra !! length pre = Some row) as Hrow
      by (rewrite Hb; by apply list_lookup_middle).
    destruct (coadd_target_single spectra h0 o h (length pre) row fm)
      as (h1 & Hrun & Hlay1); try done.
    destruct (IH (pre ++ [row]) (fm ++ [row]) h1) as (h' & Hrun' & Hlay').
    + by rewrite <- app_assoc.
    + rewrite length_app. simpl. by rewrite Nat.add_1_r.
    + exists h'. split; [|done].
      rewrite length_app in Hrun'. simpl in Hrun'.
      rewrite Nat.add_1_r in Hrun'.
      simpl. rewrite (bind_run _ _ _ _ _ Hrun).
      fold (fmap (M:=list) TARGETID suf). rewrite Hrun'.
      by rewrite <- app_assoc.
Qed.

Lemma unique_from_NoDup : ∀ l seen,
  NoDup l → (∀ x, x ∈ l → x ∉ seen) → unique_from seen l = l.
Proof.
  induction l as [|x l IH]; intros seen Hnd Hseen; [done|].
  apply NoDup_cons in Hnd as [Hx Hnd]. simpl.
  rewrite decide_False by (apply Hseen; left).
  f_equal. apply IH; [done|].
  intros y Hy [->|Hin]%elem_of_cons; [done|].
  by apply (Hseen y); [right|].
Qed.

Lemma alloc_bind_run {B} a (f : loc → M B) h :
  (alloc a ≫= f) h = f (length h) (h ++ [a]).
Proof. done. Qed.

Lemma zeros3_ndiag n d m (r : array3) :
  has_shape3 n d m r →
  zeros3 (n, (shape2 r).2, m) = replicate n (zeros2 (d, m)).
Proof.
  intros [Lr Fr]. unfold zeros3. simpl. destruct r as [|r0 r]; simpl in *.
  - by subst n.
  - inversion Fr as [|? ? [<- _] _]. done.
Qed.

Lemma lookup_block (h blk : heap) i o :
  i = length h + o → (h ++ blk) !! i = blk !! o.
Proof.
  intros ->. rewrite lookup_app_r by lia. f_equal. lia.
Qed.

(** Lines 426-434 for one band of a well-formed input. *)
Lemma create_output_single spectra h0 pre ch o h :
  let n := length (fibermap spectra) in
  NoDup (pre ++ [ch]) →
  (∃ a, band_in spectra h0 n ch a) →
  dicts_ready spectra (length h0) pre o →
  layout spectra h0 pre h 0 0 →
  ∃ h' o', create_output spectra n ch o h = (h', Ok o') ∧
    dicts_ready spectra (length h0) (pre ++ [ch]) o' ∧
    layout spectra h0 (pre ++ [ch]) h' 0 0.
Proof.
  intros n Hnd [a Ha] [Hd Hdm] (Hold & Hlen & Hlay).
  set (D := length h0) in *. set (s := stride spectra) in *.
  pose proof Ha as ((lw & Hlw & Hw) & (lf & Hlf & Hf) & (lv & Hlv & Hv) &
                    (lr & Hlr & Hr) & Sf & Sv & Sr & Hmask).
  set (m := length (ba_wave a)) in *.
  assert (ch ∉ pre) as Hch.
  { apply NoDup_app in Hnd as (_ & Hnd & _). intros Hin.
    apply (Hnd ch Hin). by left. }
  assert (∀ l x, h0 !! l = Some x → h !! l = Some x) as Hin0.
  { intros l x Hl. rewrite Hold; [done|]. by eapply lookup_lt_Some. }
  assert (∀ j ch', pre !! j = Some ch' → ch' ≠ ch) as Hne.
  { intros j ch' Hj ->. apply Hch. by eapply list_elem_of_lookup_2. }
  unfold create_output.
  rewrite (lift_bind_ok _ _ _ _ (getkey_ok _ _ _ Hlw)).
  rewrite (bind_run _ _ _ _ _ (load1_run _ _ _ (Hin0 _ _ Hw))).
  rewrite !alloc_bind_run.
  rewrite (lift_bind_ok _ _ _ _ (getkey_ok _ _ _ Hlr)).
  erewrite (bind_run (load3 lr));
    [|apply (load3_run _ _ (ba_rdat a)); rewrite !lookup_app_l
        by (rewrite ?length_app; simpl;
            apply lookup_lt_Some in Hr; fold D in Hr; lia);
      by apply Hin0].
  rewrite alloc_bind_run.
  rewrite (zeros3_ndiag n (ba_ndiag a) (length (ba_wave a)) _ Sr).
  rewrite !length_app. simpl length. rewrite <- !app_assoc. simpl app.
  fold m.
  assert (∀ j ch' a',
            (pre ++ [ch]) !! j = Some ch' → band_in spectra h0 n ch' a' →
            (j < length pre ∧ pre !! j = Some ch') ∨
            (j = length pre ∧ ch' = ch ∧ ba_wave a' = ba_wave a ∧
             ba_flux a' = ba_flux a ∧ ba_ivar a' = ba_ivar a ∧
             ba_rdat a' = ba_rdat a ∧
             replicate n (zeros2 (ba_ndiag a', m))
             = replicate n (zeros2 (ba_ndiag a, m)) ∧
             (is_Some (mask spectra) → ba_mask a' = ba_mask a))) as Hcase.
  { intros j ch' a' Hj Ha'.
    apply lookup_app_Some in Hj as [Hj|[Hge Hj]].
    - left. split; [by eapply lookup_lt_Some|done].
    - right. apply list_lookup_singleton_Some in Hj as [Hj <-].
      destruct (band_in_fun _ _ _ _ _ _ Ha Ha')
        as (Ew & Ef & Ev & Er & Ed & Ek).
      split_and!; try done; try lia.
      + destruct (decide (n = 0)) as [->|Hn]; [done|].
        by rewrite Ed by lia.
      + intros Hm. by rewrite Ek. }
  destruct (mask spectra) as [dm|] eqn:Em.
  - destruct Hdm as (dm' & Edm' & Hdm').
    destruct (Hmask dm eq_refl) as (lm & Hlm & Hm & Lm & Fm).
    assert (s = 5) as Es by (unfold s, stride; by rewrite Em).
    rewrite Edm'.
    erewrite bind_run; cycle 1.
    { rewrite (lift_bind_ok _ _ dm _ eq_refl).
      rewrite (lift_bind_ok _ _ _ _ (getkey_ok _ _ _ Hlm)).
      rewrite alloc_bind_run. reflexivity. }
    eexists _, _. split; [reflexivity|].
    rewrite !length_app. simpl length. rewrite <- !app_assoc. simpl app.
    split.
    + unfold dicts_ready. rewrite Em. fold s D. split.
      * intros j ch' Hj.
        apply lookup_app_Some in Hj as [Hj|[Hge Hj]].
        -- destruct (Hd j ch' Hj) as (? & ? & ? & ?). simpl.
           rewrite !lookup_insert_ne by (symmetry; by eapply Hne). done.
        -- apply list_lookup_singleton_Some in Hj as [Hj <-]. simpl.
           rewrite !lookup_insert_eq.
           split_and!; f_equal; lia.
      * eexists. split; [reflexivity|].
        intros j ch' Hj.
        apply lookup_app_Some in Hj as [Hj|[Hge Hj]].
        -- rewrite lookup_insert_ne by (symmetry; by eapply Hne).
           by apply Hdm'.
        -- apply list_lookup_singleton_Some in Hj as [Hj <-].
           rewrite lookup_insert_eq. f_equal. lia.
    + split_and!.
      * intros l Hl. fold D in Hl. rewrite lookup_app_l by lia. by apply Hold.
      * rewrite !length_app. simpl. lia.
      * intros j ch' a' Hj Ha'. fold D s n. cbv zeta.
        rewrite decide_False by lia.
        destruct (Hcase j ch' a' Hj Ha')
          as [[Hlt Hpre]|(-> & -> & Ew & Ef & Ev & Er & Ed & Ek)].
        -- destruct (Hlay j ch' a' Hpre Ha') as (Cw & Cf & Cv & Cr & Cm).
           rewrite decide_False in Cf, Cv, Cr, Cm by lia.
           rewrite !lookup_app_l by lia. split_and!; try done.
           intros _. apply Cm. by eexists.
        -- rewrite Ew, Ef, Ev, Er, !mix_0. fold m. rewrite Ed.
           split_and!; try (by apply lookup_block; lia).
           ++ by rewrite (lookup_block _ _ _ 0) by lia.
           ++ by rewrite (lookup_block _ _ _ 1) by lia.
           ++ by rewrite (lookup_block _ _ _ 2) by lia.
           ++ by rewrite (lookup_block _ _ _ 3) by lia.
           ++ intros _. by rewrite (lookup_block _ _ _ 4) by lia.
  - assert (s = 4) as Es by (unfold s, stride; by rewrite Em).
    rewrite Hdm, !ret_bind_run.
    eexists _, _. split; [reflexivity|].
    split.
    + unfold dicts_ready. rewrite Em. fold s D. split; [|done].
      intros j ch' Hj.
      apply lookup_app_Some in Hj as [Hj|[Hge Hj]].
      * destruct (Hd j ch' Hj) as (? & ? & ? & ?). simpl.
        rewrite !lookup_insert_ne by (symmetry; by eapply Hne). done.
      * apply list_lookup_singleton_Some in Hj as [Hj <-]. simpl.
        rewrite !lookup_insert_eq.
        split_and!; f_equal; lia.
    + split_and!.
      * intros l Hl. fold D in Hl. rewrite lookup_app_l by lia. by apply Hold.
      * rewrite !length_app. simpl. lia.
      * intros j ch' a' Hj Ha'. fold D s n. cbv zeta.
        rewrite decide_False by lia.
        destruct (Hcase j ch' a' Hj Ha')
          as [[Hlt Hpre]|(-> & -> & Ew & Ef & Ev & Er & Ed & Ek)].
        -- destruct (Hlay j ch' a' Hpre Ha') as (Cw & Cf & Cv & Cr & Cm).
           rewrite decide_False in Cf, Cv, Cr, Cm by lia.
           rewrite !lookup_app_l by lia. split_and!; try done.
           intros [? ?]. congruence.
        -- rewrite Ew, Ef, Ev, Er, !mix_0. fold m. rewrite Ed.
           split_and!.
           ++ by rewrite (lookup_block _ _ _ 0) by lia.
           ++ by rewrite (lookup_block _ _ _ 1) by lia.
           ++ by rewrite (lookup_block _ _ _ 2) by lia.
           ++ by rewrite (lookup_block _ _ _ 3) by lia.
           ++ intros [? ?]. congruence.
Qed.

(** The loop of lines 426-434 on a well-formed input. *)
Lemma create_outputs_single spectra h0 :
  let n := length (fibermap spectra) in
  NoDup (bands spectra) →
  (∀ ch, ch ∈ bands spectra → ∃ a, band_in spectra h0 n ch a) →
  ∀ suf pre o h,
    bands spectra = pre ++ suf →
    dicts_ready spectra (length h0) pre o →
    layout spectra h0 pre h 0 0 →
    ∃ h1 o1, for_M suf (create_output spectra n) o h = (h1, Ok o1) ∧
      dicts_ready spectra (length h0) (bands spectra) o1 ∧
      layout spectra h0 (bands spectra) h1 0 0.
Proof.
  intros n Hnd Hin. subst n.
  induction suf as [|ch suf IH]; intros pre o h Hb Hd Hlay.
  - exists h, o. rewrite app_nil_r in Hb. by rewrite Hb.
  - destruct (create_output_single spectra h0 pre ch o h)
      as (h1 & o1 & Hrun & Hd1 & Hlay1); try done.
    { rewrite Hb in Hnd. change (ch :: suf) with ([ch] ++ suf) in Hnd.
      rewrite app_assoc in Hnd. by apply NoDup_app in Hnd as (? & _). }
    { apply Hin. rewrite Hb. apply elem_of_app. right. by left. }
    destruct (IH (pre ++ [ch]) o1 h1) as (h2 & o2 & Hrun2 & Hd2 & Hlay2);
      try done.
    { by rewrite <- app_assoc. }
    exists h2, o2. split; [|done].
    by rewrite for_M_cons, Hrun.
Qed.

(** The constructor accepts output arrays that have one row for each row
    of the fibermap. *)
Lemma new_Spectra_ok (o : outputs) fm meta h : ∀ bs,
  (∀ ch, ch ∈ bs → ∃ lf f, o_flux o !! ch = Some lf ∧
                           h !! lf = Some (F2 f) ∧ length f = length fm) →
  new_Spectra bs o fm meta h
  = (h, Ok (MkSpectra bs (o_wave o) (o_flux o) (o_ivar o) (o_mask o)
              (o_rdat o) fm meta)).
Proof.
  intros bs Hbs. unfold new_Spectra.
  assert (∀ bs', (∀ ch, ch ∈ bs' → ch ∈ bs) →
            for_M bs' (λ channel (_ : ()),
              lf ← lift (getkey (o_flux o) channel);
              f ← load2 lf;
              if decide (length f = length fm) then mret ()
              else raise RuntimeError) () h = (h, Ok ())) as Hloop.
  { induction bs' as [|b bs' IH]; intros Hsub; [done|].
    destruct (Hbs b) as (lf & f & Hlf & Hf & Lf); [apply Hsub; by left|].
    rewrite for_M_cons.
    rewrite (lift_bind_ok _ _ _ _ (getkey_ok _ _ _ Hlf)).
    rewrite (bind_run _ _ _ _ _ (load2_run _ _ _ Hf)).
    rewrite decide_True by done.
    apply IH. intros ch Hch. apply Hsub. by right. }
  by rewrite (bind_run _ _ _ _ _ (Hloop bs (λ ch H, H))).
Qed.

(** When every target has one exposure, [coadd_targets] returns, and each
    band of the result holds the flux, inverse-variance and resolution
    arrays of the input. *)
Lemma coadd_targets_single spectra h0 :
  all_single_exposure spectra h0 →
  ∃ h' out,
    coadd_targets spectra None h0 = (h', Ok out) ∧
    fibermap out = fibermap spectra ∧
    ∀ ch a, ch ∈ bands spectra →
      band_in spectra h0 (length (fibermap spectra)) ch a →
      ∃ lf' lv' lr',
        flux out !! ch = Some lf' ∧ h' !! lf' = Some (F2 (ba_flux a)) ∧
        ivar out !! ch = Some lv' ∧ h' !! lv' = Some (F2 (ba_ivar a)) ∧
        resolution_data out !! ch = Some lr' ∧
        h' !! lr' = Some (F3 (ba_rdat a)).
Proof.
  intros (Hndb & Hndt & Hin).
  set (n := length (fibermap spectra)) in *.
  assert (target_ids spectra = TARGETID <$> fibermap spectra) as Hids.
  { unfold target_ids. apply unique_from_NoDup; [done|].
    intros x _. apply not_elem_of_nil. }
  assert (num_targets spectra = n) as Hnum.
  { unfold num_targets. by rewrite Hids, length_fmap. }
  unfold coadd_targets, coadd_arrays. cbn [default]. rewrite Hnum, Hids.
  destruct (create_outputs_single spectra h0 Hndb Hin (bands spectra) []
              (Outputs ∅ ∅ ∅ ∅ (match mask spectra with
                                 | None => None
                                 | Some _ => Some ∅
                                 end)) h0)
    as (h1 & o & Hrun1 & Hd & Hlay1); [done|..].
  { split; [intros j ch Hj; by rewrite lookup_nil in Hj|].
    destruct (mask spectra); [|done]. exists ∅. split; [done|].
    intros j ch Hj. by rewrite lookup_nil in Hj. }
  { split_and!; [done|simpl; lia|].
    intros j ch a Hj. by rewrite lookup_nil in Hj. }
  fold n in Hrun1.
  destruct (coadd_targets_loop_single spectra h0 o Hd Hin Hndt
              (fibermap spectra) [] [] h1)
    as (h2 & Hrun2 & Hlay2); [done|done|].
  unfold enumerate. rewrite length_fmap.
  simpl in Hrun2.
  assert (∀ ch a, ch ∈ bands spectra → band_in spectra h0 n ch a →
            ∃ lf' lv' lr',
              o_flux o !! ch = Some lf' ∧ h2 !! lf' = Some (F2 (ba_flux a)) ∧
              o_ivar o !! ch = Some lv' ∧ h2 !! lv' = Some (F2 (ba_ivar a)) ∧
              o_rdat o !! ch = Some lr' ∧
              h2 !! lr' = Some (F3 (ba_rdat a))) as Hout.
  { intros ch a Hch Ha.
    apply list_elem_of_lookup in Hch as [j Hj].
    destruct Hd as [Hd _]. destruct (Hd j ch Hj) as (_ & Df & Dv & Dr).
    destruct Hlay2 as (_ & _ & Hlay2).
    destruct (Hlay2 j ch a Hj Ha) as (_ & Cf & Cv & Cr & _).
    rewrite decide_False in Cf, Cv, Cr by lia.
    destruct Ha as (_ & _ & _ & _ & [Lf _] & [Lv _] & [Lr _] & _).
    rewrite mix_all in Cf by done. rewrite mix_all in Cv by done.
    rewrite mix_all in Cr by done.
    eexists _, _, _. split_and!; done. }
  erewrite bind_run; cycle 1.
  { rewrite (bind_run _ _ _ _ _ Hrun1).
    rewrite (bind_run _ _ _ _ _ Hrun2). reflexivity. }
  cbv beta iota.
  rewrite new_Spectra_ok.
  - eexists _, _. split; [reflexivity|]. split; [done|].
    intros ch a Hch Ha. simpl. by apply Hout.
  - intros ch Hch. destruct (Hin ch Hch) as [a Ha].
    destruct (Hout ch a Hch Ha) as (lf' & _ & _ & Hlf & Hf & _).
    exists lf', (ba_flux a). split_and!; [done|done|].
    by destruct Ha as (_ & _ & _ & _ & [Lf _] & _).
Qed.

End PassThroughFacts.
(** * The claims about [_coadd] *)

Module CoaddTheorems.
Import NP Coadd CoaddSpec CoaddFacts CoaddExamples.

(** C1.  For [nspec >= 1] exposures of one shape [_coadd] returns, and at
    every sample [j], with [weight] the sum of the inverse variances of
    the exposures at [j]: if [weight > 0] the flux is the sum of
    [flux[i] * ivar[i]] divided by [weight]; if [weight == 0] it is the
    sum of [flux[i]] divided by [nspec]; and neither of the two divisors
    of lines 383 and 384, [weights + isbad] at [j] and [nspec], is zero,
    so no division is one by zero.  On the two exposures of the example
    the coadded flux is [11, 19, 31], also in the arithmetic of numpy. *)
Theorem coadd_flux_weighted_mean :
  (∀ wave flux ivar rdat nspec nwave ndiag,
     1 ≤ nspec →
     has_shape2 nspec nwave flux → has_shape2 nspec nwave ivar →
     has_shape3 nspec ndiag nwave rdat →
     ∃ outflux outivar outrdat,
       _coadd wave flux ivar rdat = Ok (wave, outflux, outivar, outrdat) ∧
       length outflux = nwave ∧
       ∀ j, j < nwave →
         let weight := fsum (column j ivar) in
         (fltb f0 weight = true →
          outflux !! j
          = Some (fdiv (fsum (zip_with fmul (column j flux) (column j ivar)))
                    weight)) ∧
         (feqb weight f0 = true →
          outflux !! j = Some (fdiv (fsum (column j flux)) (of_nat nspec))) ∧
         feqb (fadd weight (of_bool (feqb weight f0))) f0 = false ∧
         feqb (of_nat nspec) f0 = false) ∧
  ∃ outivar outrdat,
    _coadd wave3 flux2 ivar2 rdat2
    = Ok (wave3, [fz 11; fz 19; fz 31], outivar, outrdat) ∧
    _coadd_with binary64 wave3 flux2 ivar2 rdat2
    = Ok (wave3, [fz 11; fz 19; fz 31], outivar, outrdat).
Proof.
  split.
  - intros wave flux ivar rdat nspec nwave ndiag Hn Hf Hv Hr.
    destruct (coadd_lookup unrounded wave flux ivar rdat nspec nwave ndiag)
      as (outflux & outivar & outrdat & Hrun & Lf & Lv & Hj & _);
      [lia|done..|].
    exists outflux, outivar, outrdat.
    split; [done|]. split; [done|]. intros j Hlt weight.
    destruct (Hj j Hlt) as [-> _]. unfold flux_at. cbn [unrounded a_add a_div].
    change (asum unrounded) with fsum. fold weight.
    split_and!.
    + intros Hw. by rewrite (fltb_0_feqb _ Hw), fadd_0_r.
    + intros Hw. by rewrite Hw.
    + apply denominator_nonzero.
    + apply of_nat_nonzero. lia.
  - exists [fz 2; fz 2; fz 2], [[fz 1; fz 1; fz 1]].
    compute_done.
Qed.

Lemma coadd_flux_weighted_mean_witness :
  (1 ≤ 2 ∧ has_shape2 2 3 flux2 ∧ has_shape2 2 3 ivar2 ∧
   has_shape3 2 1 3 rdat2) ∧
  ∃ outflux outivar outrdat,
    _coadd wave3 flux2 ivar2 rdat2 = Ok (wave3, outflux, outivar, outrdat) ∧
    length outflux = 3 ∧
    ∀ j, j < 3 →
      let weight := fsum (column j ivar2) in
      (fltb f0 weight = true →
       outflux !! j
       = Some (fdiv (fsum (zip_with fmul (column j flux2) (column j ivar2)))
                 weight)) ∧
      (feqb weight f0 = true →
       outflux !! j = Some (fdiv (fsum (column j flux2)) (of_nat 2))) ∧
      feqb (fadd weight (of_bool (feqb weight f0))) f0 = false ∧
      feqb (of_nat 2) f0 = false.
Proof.
  assert (1 ≤ 2 ∧ has_shape2 2 3 flux2 ∧ has_shape2 2 3 ivar2 ∧
          has_shape3 2 1 3 rdat2) as H
    by (split; [lia|repeat split; repeat constructor]).
  split; [exact H|]. destruct H as (H1 & H2 & H3 & H4).
  exact (proj1 coadd_flux_weighted_mean wave3 flux2 ivar2 rdat2 2 3 1
           H1 H2 H3 H4).
Defined.

(** C2.  For exposures of one shape the inverse variance [_coadd]
    returns is, at every sample, the sum of the inverse variances of the
    exposures; where all of them are zero it is zero. *)
Theorem coadd_ivar_is_sum wave flux ivar rdat nspec nwave ndiag :
  1 ≤ nspec →
  has_shape2 nspec nwave flux → has_shape2 nspec nwave ivar →
  has_shape3 nspec ndiag nwave rdat →
  ∃ outflux outivar outrdat,
    _coadd wave flux ivar rdat = Ok (wave, outflux, outivar, outrdat) ∧
    length outivar = nwave ∧
    ∀ j, j < nwave →
      outivar !! j = Some (fsum (column j ivar)) ∧
      (column j ivar = replicate nspec f0 → outivar !! j = Some f0).
Proof.
  intros Hn Hf Hv Hr.
  destruct (coadd_lookup unrounded wave flux ivar rdat nspec nwave ndiag)
    as (outflux & outivar & outrdat & Hrun & Lf & Lv & Hj & _);
    [lia|done..|].
  exists outflux, outivar, outrdat.
  split; [done|]. split; [done|]. intros j Hlt.
  destruct (Hj j Hlt) as [_ ->]. split; [done|].
  - intros Hz. rewrite Hz.
    f_equal. clear. induction nspec as [|n IH]; [done|].
    unfold asum in *. cbn [replicate foldl unrounded a_add].
    by rewrite fadd_0_l.
Qed.

Lemma coadd_ivar_is_sum_witness :
  (1 ≤ 2 ∧ has_shape2 2 3 flux2 ∧ has_shape2 2 3 ivar2 ∧
   has_shape3 2 1 3 rdat2) ∧
  ∃ outflux outivar outrdat,
    _coadd wave3 flux2 ivar2 rdat2 = Ok (wave3, outflux, outivar, outrdat) ∧
    length outivar = 3 ∧
    ∀ j, j < 3 →
      outivar !! j = Some (fsum (column j ivar2)) ∧
      (column j ivar2 = replicate 2 f0 → outivar !! j = Some f0).
Proof.
  assert (1 ≤ 2 ∧ has_shape2 2 3 flux2 ∧ has_shape2 2 3 ivar2 ∧
          has_shape3 2 1 3 rdat2) as H
    by (split; [lia|repeat split; repeat constructor]).
  split; [exact H|]. destruct H as (H1 & H2 & H3 & H4).
  exact (coadd_ivar_is_sum wave3 flux2 ivar2 rdat2 2 3 1 H1 H2 H3 H4).
Defined.

(** C7, as the code has it.  Where every exposure has the same inverse
    variance [v] at a sample, in any arithmetic in which [0 + 0] is [0]
    (numpy's among them): if [v] is zero the coadded flux at that sample
    is the sum of the fluxes of the exposures divided by [nspec], their
    arithmetic mean; if the sum of the [v] is not zero it is the sum of
    [flux[i] * v] divided by that sum plus [isbad], which is zero there,
    as the operations of the arithmetic give them. *)
Theorem coadd_equal_ivar (Ar : arith) wave flux ivar rdat
    nspec nwave ndiag j v :
  a_add Ar f0 f0 = f0 →
  1 ≤ nspec →
  has_shape2 nspec nwave flux → has_shape2 nspec nwave ivar →
  has_shape3 nspec ndiag nwave rdat →
  j < nwave →
  column j ivar = replicate nspec v →
  ∃ outflux outivar outrdat,
    _coadd_with Ar wave flux ivar rdat
    = Ok (wave, outflux, outivar, outrdat) ∧
    (v = f0 →
     outflux !! j
     = Some (a_div Ar (asum Ar (column j flux)) (of_nat nspec))) ∧
    (let weight := asum Ar (replicate nspec v) in
     feqb weight f0 = false →
     outflux !! j
     = Some (a_div Ar
               (asum Ar (zip_with (a_mul Ar) (column j flux)
                           (replicate nspec v)))
               (a_add Ar weight f0))).
Proof.
  intros H0 Hn Hf Hv Hr Hlt Ev.
  destruct (coadd_lookup Ar wave flux ivar rdat nspec nwave ndiag)
    as (outflux & outivar & outrdat & Hrun & Lf & Lv & Hj & _);
    [lia|done..|].
  exists outflux, outivar, outrdat. split; [done|].
  destruct (Hj j Hlt) as [-> _]. unfold flux_at. rewrite Ev. split.
  - intros ->. by rewrite (asum_zeros Ar nspec H0).
  - intros Hw. by rewrite Hw.
Qed.

Lemma coadd_equal_ivar_witness :
  (a_add binary64 f0 f0 = f0 ∧ 1 ≤ 2 ∧
   has_shape2 2 1 [[tenth]; [tenth]] ∧ has_shape2 2 1 [[f0]; [f0]] ∧
   has_shape3 2 1 1 [[[f1]]; [[f1]]] ∧ 0 < 1 ∧
   column 0 [[f0]; [f0]] = replicate 2 f0) ∧
  ∃ outflux outivar outrdat,
    _coadd_with binary64 [f1] [[tenth]; [tenth]] [[f0]; [f0]]
      [[[f1]]; [[f1]]]
    = Ok ([f1], outflux, outivar, outrdat) ∧
    (f0 = f0 →
     outflux !! 0
     = Some (a_div binary64 (asum binary64 (column 0 [[tenth]; [tenth]]))
               (of_nat 2))) ∧
    (let weight := asum binary64 (replicate 2 f0) in
     feqb weight f0 = false →
     outflux !! 0
     = Some (a_div binary64
               (asum binary64
                  (zip_with (a_mul binary64) (column 0 [[tenth]; [tenth]])
                     (replicate 2 f0)))
               (a_add binary64 weight f0))).
Proof.
  assert (a_add binary64 f0 f0 = f0 ∧ 1 ≤ 2 ∧
          has_shape2 2 1 [[tenth]; [tenth]] ∧ has_shape2 2 1 [[f0]; [f0]] ∧
          has_shape3 2 1 1 [[[f1]]; [[f1]]] ∧ 0 < 1 ∧
          column 0 [[f0]; [f0]] = replicate 2 f0) as H.
  { split; [by vm_compute|]. split; [lia|].
    repeat split; repeat constructor. }
  split; [exact H|]. destruct H as (H1 & H2 & H3 & H4 & H5 & H6 & H7).
  exact (coadd_equal_ivar binary64 [f1] [[tenth]; [tenth]]
           [[f0]; [f0]] [[[f1]]; [[f1]]] 2 1 1 0 f0 H1 H2 H3 H4 H5 H6 H7).
Defined.

(** C7 as stated fails in the arithmetic of numpy: two exposures of flux
    0.1 and inverse variance 0.1 have the mean 0.1, and [_coadd] returns
    the next double, printed 0.10000000000000002. *)
Lemma coadd_equal_ivar_rounds :
  ∃ x outivar outrdat,
    _coadd_with binary64 [f1] [[tenth]; [tenth]] [[tenth]; [tenth]]
      [[[f1]]; [[f1]]]
    = Ok ([f1], [x], outivar, outrdat) ∧
    a_div binary64 (asum binary64 [tenth; tenth]) (of_nat 2) = tenth ∧
    fdiv (fsum [tenth; tenth]) (of_nat 2) = tenth ∧
    x ≠ tenth.
Proof.
  eexists _, _, _. split; [vm_compute; reflexivity|].
  split; [compute_done|]. split; [compute_done|]. compute_done.
Qed.

End CoaddTheorems.
(** * The claims about [coadd_targets] *)

Module CoaddTargetsTheorems.
Import NP Coadd Heap CoaddTargets CoaddSpec CoaddFacts HeapSpec HeapFacts.
Import CoaddTargetsExamples CoaddExamples PassThroughSpec PassThroughExamples.
Import PassThroughFacts.

(** C8.  Whatever [coadd_targets] does, every float array of the heap it
    started from (the input grids, fluxes, inverse variances and
    resolutions among them) is left as it was.  When it returns, each band
    of the result has a grid with the values of the input grid of that
    band, and the grid, flux, inverse-variance and resolution arrays of
    the result are array objects that did not exist before the call. *)
Theorem coadd_targets_fresh_outputs spectra targetids h :
  let h' := (coadd_targets spectra targetids h).1 in
  (∀ l a, h !! l = Some a → is_float a → h' !! l = Some a) ∧
  ∀ out, (coadd_targets spectra targetids h).2 = Ok out →
    (∀ ch, ch ∈ bands spectra →
       ∃ l l' w, wave spectra !! ch = Some l ∧ wave out !! ch = Some l' ∧
         h' !! l' = Some (F1 w) ∧ (l < length h → h !! l = Some (F1 w))) ∧
    (∀ ch l', wave out !! ch = Some l' ∨ flux out !! ch = Some l' ∨
              ivar out !! ch = Some l' ∨
              resolution_data out !! ch = Some l' →
              length h ≤ l').
Proof.
  intros h'. split.
  - apply evolves_unchanged, coadd_targets_evolves.
  - intros out Hout.
    destruct (coadd_targets spectra targetids h) as [h1 r] eqn:E.
    simpl in Hout. subst r. subst h'. simpl.
    apply coadd_targets_inv in E as (_ & (Fw & Ff & Fi & Fr & _) & Hw).
    split; [done|]. simpl in *.
    intros ch l' [H|[H|[H|H]]]; [by eapply Fw|by eapply Ff|by eapply Fi|
                                 by eapply Fr].
Qed.

Lemma coadd_targets_fresh_outputs_witness :
  ∃ out, (coadd_targets spectra3 None heap3).2 = Ok out ∧
    (∀ ch, ch ∈ bands spectra3 →
       ∃ l l' w, wave spectra3 !! ch = Some l ∧ wave out !! ch = Some l' ∧
         (coadd_targets spectra3 None heap3).1 !! l' = Some (F1 w) ∧
         (l < length heap3 → heap3 !! l = Some (F1 w))) ∧
    (∀ ch l', wave out !! ch = Some l' ∨ flux out !! ch = Some l' ∨
              ivar out !! ch = Some l' ∨
              resolution_data out !! ch = Some l' →
              length heap3 ≤ l').
Proof.
  eexists. split; [vm_compute; reflexivity|].
  apply (proj2 (coadd_targets_fresh_outputs spectra3 None heap3)).
  vm_compute. reflexivity.
Defined.

(** C6, as the code has it.  When a requested target identifier matches
    no row of the fibermap, [coadd_targets] returns no result: the call
    ends in an exception.  When the output arrays are created and the
    identifiers requested before it are dealt with (lines 413-467 run to
    their end on them), that exception is the IndexError of [ii[0]]. *)
Theorem coadd_targets_missing_target spectra pre t post h :
  t ∉ (TARGETID <$> fibermap spectra) →
  is_Err (coadd_targets spectra (Some (pre ++ t :: post)) h).2 ∧
  (is_Ok (coadd_arrays spectra (Some pre) h).2 →
   (coadd_targets spectra (Some (pre ++ t :: post)) h).2 = Err IndexError).
Proof.
  intros Ht.
  assert (is_Err (coadd_arrays spectra (Some (pre ++ t :: post)) h).2 ∧
          (is_Ok (coadd_arrays spectra (Some pre) h).2 →
           (coadd_arrays spectra (Some (pre ++ t :: post)) h).2
           = Err IndexError)) as [[e He] Hix].
  { unfold coadd_arrays, mbind, M_bind. simpl default.
    destruct (for_M (bands spectra) _ _ h) as [h1 [o|e]]; simpl.
    2:{ split; [by eexists|]. by intros [? ?]. }
    rewrite enumerate_app, for_M_app.
    destruct (for_M (enumerate pre) _ _ h1) as [h2 [fm|e]]; cbn [fst snd].
    2:{ split; [by eexists|]. by intros [? ?]. }
    rewrite for_M_cons, coadd_target_missing by done. simpl.
    split; [by eexists|done]. }
  assert (∀ e, (coadd_arrays spectra (Some (pre ++ t :: post)) h).2 = Err e →
            (coadd_targets spectra (Some (pre ++ t :: post)) h).2 = Err e)
    as Hraise.
  { intros e'. unfold coadd_targets. unfold mbind at 1. unfold M_bind.
    destruct (coadd_arrays spectra _ h) as [h1 [[o fm]|e'']]; simpl;
      [done|]. by intros [= ->]. }
  split; [exists e; by apply Hraise|].
  intros Hpre. by apply Hraise, Hix.
Qed.

Lemma coadd_targets_missing_target_witness :
  (99%Z ∉ (TARGETID <$> fibermap spectra3)) ∧
  is_Err (coadd_targets spectra3 (Some ([] ++ 99%Z :: [])) heap3).2 ∧
  (is_Ok (coadd_arrays spectra3 (Some []) heap3).2 →
   (coadd_targets spectra3 (Some ([] ++ 99%Z :: [])) heap3).2
   = Err IndexError).
Proof.
  assert (99%Z ∉ (TARGETID <$> fibermap spectra3)) as H by compute_done.
  split; [exact H|].
  exact (coadd_targets_missing_target spectra3 [] 99%Z [] heap3 H).
Defined.

(** C6 as stated fails: target 99 has no row in the example, and the call
    raises IndexError. *)
Lemma coadd_targets_missing_target_raises :
  (99%Z ∉ (TARGETID <$> fibermap spectra3)) ∧
  (coadd_targets spectra3 (Some [99%Z]) heap3).2 = Err IndexError.
Proof. split; [compute_done|]. vm_compute. reflexivity. Qed.

(** C10 at a failing input.  The example has the targets 7 and 8; asked
    for target 8 alone, lines 413-467 build a flux array of two rows, the
    second of them all zeros, and a fibermap of one row, and the
    constructor of line 469 refuses them: the call raises RuntimeError. *)
Lemma coadd_targets_subset_rows :
  ∃ h' o fm lf a,
    coadd_arrays spectra3 (Some [8%Z]) heap3 = (h', Ok (o, fm)) ∧
    o_flux o !! "b" = Some lf ∧ h' !! lf = Some (F2 a) ∧
    length a = 2 ∧ a !! 1 = Some (zeros 3) ∧
    length fm = 1 ∧
    coadd_targets spectra3 (Some [8%Z]) heap3 = (h', Err RuntimeError).
Proof.
  eexists _, _, _, _, _. split; [vm_compute; reflexivity|].
  split; [vm_compute; reflexivity|].
  split; [vm_compute; reflexivity|].
  split; [reflexivity|]. split; [reflexivity|]. split; [reflexivity|].
  vm_compute. reflexivity.
Qed.

(** C3, as the code has it.  When no two rows of the input are of the same
    target, [coadd_targets] returns, its fibermap is the input's, and for
    every band the flux, inverse-variance and resolution arrays of the
    result hold exactly the values of the input arrays.  [_coadd] run on
    one of these exposures alone returns the inverse variance of that
    exposure as it is, in any arithmetic in which adding this inverse
    variance to zero gives it back (numpy's, for every double). *)
Theorem coadd_targets_single_exposure spectra h :
  all_single_exposure spectra h →
  ∃ h' out,
    coadd_targets spectra None h = (h', Ok out) ∧
    fibermap out = fibermap spectra ∧
    ∀ ch a, ch ∈ bands spectra →
      band_in spectra h (length (fibermap spectra)) ch a →
      (∃ lf' lv' lr',
         flux out !! ch = Some lf' ∧ h' !! lf' = Some (F2 (ba_flux a)) ∧
         ivar out !! ch = Some lv' ∧ h' !! lv' = Some (F2 (ba_ivar a)) ∧
         resolution_data out !! ch = Some lr' ∧
         h' !! lr' = Some (F3 (ba_rdat a))) ∧
      ∀ (Ar : arith) i f v r,
        ba_flux a !! i = Some f → ba_ivar a !! i = Some v →
        ba_rdat a !! i = Some r →
        Forall (λ x, a_add Ar f0 x = x) v →
        ∃ outflux outrdat,
          _coadd_with Ar (ba_wave a) [f] [v] [r]
          = Ok (ba_wave a, outflux, v, outrdat).
Proof.
  intros Hall.
  destruct (coadd_targets_single spectra h Hall)
    as (h' & out & Hrun & Hfm & Hbands).
  exists h', out. split; [done|]. split; [done|].
  intros ch a Hch Ha. split; [by apply Hbands|].
  intros Ar i f v r Hf Hv Hr Hadd.
  destruct Ha as (_ & _ & _ & _ & [_ Sf] & [_ Sv] & [_ Sr] & _).
  pose proof (Forall_lookup_1 _ _ _ _ Sf Hf) as Lf.
  pose proof (Forall_lookup_1 _ _ _ _ Sv Hv) as Lv.
  pose proof (Forall_lookup_1 _ _ _ _ Sr Hr) as Lr.
  simpl in Lf, Lv, Lr.
  destruct (coadd_lookup Ar (ba_wave a) [f] [v] [r] 1
              (length (ba_wave a)) (ba_ndiag a))
    as (outflux & outivar & outrdat & Hco & _ & Lo & Hj & _).
  - lia.
  - split; [done|]. by constructor.
  - split; [done|]. by constructor.
  - split; [done|]. by constructor.
  - exists outflux, outrdat. rewrite Hco. do 3 f_equal.
    apply list_eq_same_length with (length (ba_wave a)); [done..|].
    intros j x y Hlt Hx Hy. destruct (Hj j Hlt) as [_ Hoj].
    rewrite Hoj in Hx. injection Hx as <-.
    unfold asum, column. simpl.
    rewrite (list_lookup_total_correct _ _ _ Hy).
    by apply (Forall_lookup_1 _ _ _ _ Hadd Hy).
Qed.

Lemma coadd_targets_single_exposure_witness :
  all_single_exposure spectra1 heap1 ∧
  ∃ h' out,
    coadd_targets spectra1 None heap1 = (h', Ok out) ∧
    fibermap out = fibermap spectra1 ∧
    (∃ lf' lv' lr',
       flux out !! "b" = Some lf' ∧
       h' !! lf' = Some (F2 (ba_flux arrays1)) ∧
       ivar out !! "b" = Some lv' ∧
       h' !! lv' = Some (F2 (ba_ivar arrays1)) ∧
       resolution_data out !! "b" = Some lr' ∧
       h' !! lr' = Some (F3 (ba_rdat arrays1))) ∧
    ∃ outflux outrdat,
      _coadd_with binary64 [fz 1; fz 2] [[fz 5; fz 6]] [[fz 0; fz 2]]
        [[[fz 1; fz 1]]]
      = Ok ([fz 1; fz 2], outflux, [fz 0; fz 2], outrdat).
Proof.
  assert (band_in spectra1 heap1 1 "b" arrays1) as Hb.
  { unfold band_in. simpl. split_and!.
    - by exists 0.
    - by exists 1.
    - by exists 2.
    - by exists 3.
    - split; [done|]. by repeat constructor.
    - split; [done|]. by repeat constructor.
    - split; [done|]. by repeat constructor.
    - intros dm Hdm. discriminate Hdm. }
  assert (all_single_exposure spectra1 heap1) as H.
  { split_and!.
    - simpl. apply NoDup_singleton.
    - simpl. apply NoDup_singleton.
    - simpl. intros ch Hch. apply list_elem_of_singleton in Hch as ->.
      by exists arrays1. }
  split; [exact H|].
  destruct (coadd_targets_single_exposure spectra1 heap1 H)
    as (h' & out & Hrun & Hfm & Hbands).
  exists h', out. split; [exact Hrun|]. split; [exact Hfm|].
  destruct (Hbands "b" arrays1) as [Hpass Hcoadd].
  { simpl. apply list_elem_of_singleton. reflexivity. }
  { exact Hb. }
  split; [exact Hpass|].
  apply (Hcoadd binary64 0); try reflexivity.
  repeat constructor; compute_done.
Defined.

(** C3 as stated fails.  Where the inverse variance is zero: for the one
    exposure of the example, whose first sample has inverse variance zero,
    [coadd_targets] returns the resolution 1, 1 of the input, and [_coadd]
    on the same exposure returns the resolution 0, 1.  And by rounding:
    in the arithmetic of numpy [_coadd] on one exposure of flux 0.1 and
    inverse variance 3 returns the flux [0.1 * 3 / 3], which is the next
    double after 0.1. *)
Lemma coadd_single_exposure_differs :
  (∃ h' out lr',
     coadd_targets spectra1 None heap1 = (h', Ok out) ∧
     resolution_data out !! "b" = Some lr' ∧
     h' !! lr' = Some (F3 [[[fz 1; fz 1]]])) ∧
  _coadd [fz 1; fz 2] [[fz 5; fz 6]] [[fz 0; fz 2]] [[[fz 1; fz 1]]]
  = Ok ([fz 1; fz 2], [fz 5; fz 6], [fz 0; fz 2], [[fz 0; fz 1]]) ∧
  [[fz 0; fz 1]] ≠ [[fz 1; fz 1]] ∧
  ∃ x, _coadd_with binary64 [f1] [[tenth]] [[fz 3]] [[[f1]]]
       = Ok ([f1], [x], [fz 3], [[f1]]) ∧
       x ≠ tenth.
Proof.
  split_and!.
  - eexists _, _, _. split_and!; vm_compute; reflexivity.
  - compute_done.
  - compute_done.
  - exists (Binary64.div (Binary64.mul tenth (fz 3)) (fz 3)).
    split; compute_done.
Qed.

End CoaddTargetsTheorems.
(** * The claims about the noise columns and the stitch *)

Module NoiseTheorems.
Import NP Noise NoiseFacts.

(** C9.  For any [sqrt]: the noise column [make_cds_spectra] derives from
    an inverse variance is [1/sqrt(ivar)] where [ivar > 0] and the number 0
    at every other sample, those with [ivar == 0] among them; the noise
    column [make_cds_coaddcam_spec] derives for the first camera-coadded
    spectrum is [1/sqrt(ivar)] where [ivar > 0] and the number 1 at every
    other sample. *)
Theorem noise_defined (sqrt : float64 → float64) :
  (∀ ivar_i, ∃ noise,
     make_cds_spectra_noise sqrt ivar_i = Ok noise ∧
     length noise = length ivar_i ∧
     ∀ j x, ivar_i !! j = Some x →
       (fltb f0 x = true → noise !! j = Some (fdiv f1 (sqrt x))) ∧
       (fltb f0 x = false → noise !! j = Some f0) ∧
       (x = f0 → noise !! j = Some f0)) ∧
  (∀ coadd_flux coadd_ivar fl0 iv0,
     coadd_flux !! 0 = Some fl0 → coadd_ivar !! 0 = Some iv0 →
     ∃ plotnoise,
       make_cds_coaddcam_spec_plotnoise sqrt true (length iv0)
         coadd_flux coadd_ivar = Ok plotnoise ∧
       length plotnoise = length iv0 ∧
       ∀ j x, iv0 !! j = Some x →
         (fltb f0 x = true → plotnoise !! j = Some (fdiv f1 (sqrt x))) ∧
         (fltb f0 x = false → plotnoise !! j = Some f1) ∧
         (x = f0 → plotnoise !! j = Some f1)).
Proof.
  split.
  - intros ivar_i. unfold make_cds_spectra_noise, where_.
    assert (getitems ivar_i (where_from 0 ((λ x, fltb f0 x) <$> ivar_i))
            = Ok (select_ ((λ x, fltb f0 x) <$> ivar_i) ivar_i)) as ->
      by exact (getitems_where (λ x, fltb f0 x) ivar_i []).
    cbn [mbind result_bind].
    destruct (put_at_where (λ x, fltb f0 x) (λ x, fdiv f1 (sqrt x)) ivar_i
                (zeros (length ivar_i)) 0) as (a' & -> & La & _ & Hk).
    { unfold zeros. rewrite length_replicate. lia. }
    exists a'. unfold zeros in La. rewrite length_replicate in La.
    split_and!; try done. intros j x Hx.
    specialize (Hk j x Hx). cbv beta in Hk. rewrite Nat.add_0_l in Hk.
    assert (zeros (length ivar_i) !! j = Some f0) as Hz.
    { apply lookup_replicate_2. by eapply lookup_lt_Some. }
    split_and!.
    + intros E. by rewrite Hk, E.
    + intros E. by rewrite Hk, E.
    + intros ->. rewrite Hk. by cbn.
  - intros coadd_flux coadd_ivar fl0 iv0 Hfl Hiv.
    unfold make_cds_coaddcam_spec_plotnoise, getitem, where_.
    rewrite Hfl, Hiv. cbn [mbind result_bind].
    assert (getitems iv0 (where_from 0 ((λ x, fltb f0 x) <$> iv0))
            = Ok (select_ ((λ x, fltb f0 x) <$> iv0) iv0)) as ->
      by exact (getitems_where (λ x, fltb f0 x) iv0 []).
    cbn [mbind result_bind].
    destruct (put_at_where (λ x, fltb f0 x) (λ x, fdiv f1 (sqrt x)) iv0
                (ones (length iv0)) 0) as (a' & -> & La & _ & Hk).
    { unfold ones. rewrite length_replicate. lia. }
    exists a'. unfold ones in La. rewrite length_replicate in La.
    split_and!; try done. intros j x Hx.
    specialize (Hk j x Hx). cbv beta in Hk. rewrite Nat.add_0_l in Hk.
    assert (ones (length iv0) !! j = Some f1) as Hz.
    { apply lookup_replicate_2. by eapply lookup_lt_Some. }
    split_and!.
    + intros E. by rewrite Hk, E.
    + intros E. by rewrite Hk, E.
    + intros ->. rewrite Hk. by cbn.
Qed.

Lemma noise_defined_witness :
  (([[fz 7; fz 9]] : array2) !! 0 = Some [fz 7; fz 9] ∧
   ([[fz 0; fz 4]] : array2) !! 0 = Some [fz 0; fz 4]) ∧
  ∃ plotnoise,
    make_cds_coaddcam_spec_plotnoise (λ x, x) true (length [fz 0; fz 4])
      [[fz 7; fz 9]] [[fz 0; fz 4]] = Ok plotnoise ∧
    length plotnoise = length [fz 0; fz 4] ∧
    ∀ j x, [fz 0; fz 4] !! j = Some x →
      (fltb f0 x = true → plotnoise !! j = Some (fdiv f1 x)) ∧
      (fltb f0 x = false → plotnoise !! j = Some f1) ∧
      (x = f0 → plotnoise !! j = Some f1).
Proof.
  split; [split; reflexivity|].
  exact (proj2 (noise_defined (λ x, x)) [[fz 7; fz 9]] [[fz 0; fz 4]]
           [fz 7; fz 9] [fz 0; fz 4] eq_refl eq_refl).
Defined.

End NoiseTheorems.

Module StitchTheorems.
Import NP Heap Stitch StitchSpec CoaddSpec StitchFacts StitchExamples.

(** C4, with the midpoint of the example as the code computes it.  On
    three non-empty grids and model fluxes of matching shapes the grid
    [create_model] returns is the [b] samples strictly below [br_split],
    then the [r] samples in [[br_split, rz_split)], then the [z] samples at
    or above [rz_split]; each row of the merged flux holds the flux values
    of those samples in the same order.  For [b = [0,1,2,3]] and
    [r = [5,6,7,8]] the first midpoint is 4 and the merged grid starts
    with [0,1,2,3,5,6,7,8]. *)
Theorem stitch_keeps_band_slices :
  (∀ b r z bl r0 rl z0 (fb fr fz : array2) n,
     last b = Some bl → head r = Some r0 →
     last r = Some rl → head z = Some z0 →
     has_shape2 n (length b) fb → has_shape2 n (length r) fr →
     has_shape2 n (length z) fz →
     let br := midpoint bl r0 in
     let rz := midpoint rl z0 in
     ∃ mflux,
       create_model (bands3 (Fin <$> b) (Fin <$> r) (Fin <$> z))
         (bands3 fb fr fz)
       = Ok (Fin <$> merged_grid b r z br rz, mflux) ∧
       length mflux = n ∧
       ∀ i rb rr rz', fb !! i = Some rb → fr !! i = Some rr →
         fz !! i = Some rz' →
         mflux !! i = Some (merged_row b r z br rz rb rr rz')) ∧
  br_split (bands3 (Fin <$> grid_b) (Fin <$> grid_r) (Fin <$> grid_z))
  = Ok (fz 4) ∧
  create_model (bands3 (Fin <$> grid_b) (Fin <$> grid_r) (Fin <$> grid_z))
    (bands3 mflux_b mflux_r mflux_z)
  = Ok (fz <$> [0; 1; 2; 3; 5; 6; 7; 8; 10; 11]%Z,
        [fz <$> [100; 101; 102; 103; 105; 106; 107; 108; 110; 111]%Z]).
Proof.
  split; [|split; compute_done].
  intros b r z bl r0 rl z0 fb fr fz n Hb Hr0 Hrl Hz Sb Sr Sz br rz.
  eexists. split; [by eapply create_model_ok|].
  destruct Sb as [Lb _], Sr as [Lr _], Sz as [Lz _].
  split; [rewrite !length_zip_with, !length_fmap; lia|].
  intros i rb rr rz' Hib Hir Hiz.
  rewrite lookup_zip_with, list_lookup_fmap, Hib. simpl.
  rewrite lookup_zip_with, !list_lookup_fmap, Hir, Hiz. done.
Qed.

Lemma stitch_keeps_band_slices_witness :
  (last grid_b = Some (zq 3) ∧ head grid_r = Some (zq 5) ∧
   last grid_r = Some (zq 8) ∧ head grid_z = Some (zq 10) ∧
   has_shape2 1 (length grid_b) mflux_b ∧
   has_shape2 1 (length grid_r) mflux_r ∧
   has_shape2 1 (length grid_z) mflux_z) ∧
  ∃ mflux,
    create_model (bands3 (Fin <$> grid_b) (Fin <$> grid_r) (Fin <$> grid_z))
      (bands3 mflux_b mflux_r mflux_z)
    = Ok (Fin <$> merged_grid grid_b grid_r grid_z
                    (midpoint (zq 3) (zq 5)) (midpoint (zq 8) (zq 10)),
          mflux) ∧
    length mflux = 1 ∧
    ∀ i rb rr rz', mflux_b !! i = Some rb → mflux_r !! i = Some rr →
      mflux_z !! i = Some rz' →
      mflux !! i
      = Some (merged_row grid_b grid_r grid_z
                (midpoint (zq 3) (zq 5)) (midpoint (zq 8) (zq 10))
                rb rr rz').
Proof.
  assert (last grid_b = Some (zq 3) ∧ head grid_r = Some (zq 5) ∧
          last grid_r = Some (zq 8) ∧ head grid_z = Some (zq 10) ∧
          has_shape2 1 (length grid_b) mflux_b ∧
          has_shape2 1 (length grid_r) mflux_r ∧
          has_shape2 1 (length grid_z) mflux_z) as H
    by (repeat split; repeat constructor).
  split; [exact H|]. destruct H as (H1 & H2 & H3 & H4 & H5 & H6 & H7).
  exact (proj1 stitch_keeps_band_slices grid_b grid_r grid_z
           (zq 3) (zq 5) (zq 8) (zq 10) mflux_b mflux_r mflux_z 1
           H1 H2 H3 H4 H5 H6 H7).
Defined.

(** C4 as stated fails in its example: for [b = [0,1,2,3]] and
    [r = [5,6,7,8]] the cut the code computes is 4, not 4.5. *)
Lemma stitch_example_midpoint_is_4 :
  br_split (bands3 (Fin <$> grid_b) (Fin <$> grid_r) (Fin <$> grid_z))
  ≠ Ok (Fin (Q2Qc (9 # 2))).
Proof. compute_done. Qed.

(** C5.  When the three grids are strictly increasing, [b] ends no later
    than [r] ends and [r] starts no later than [z] starts, the grid
    [create_model] returns is strictly increasing, has no sample twice,
    and is as long as the three retained slices together. *)
Theorem stitch_grid_increasing b r z bl r0 rl z0 (fb fr fz : array2) n :
  last b = Some bl → head r = Some r0 →
  last r = Some rl → head z = Some z0 →
  has_shape2 n (length b) fb → has_shape2 n (length r) fr →
  has_shape2 n (length z) fz →
  increasing b → increasing r → increasing z →
  (bl <= rl)%Qc → (r0 <= z0)%Qc →
  let br := midpoint bl r0 in
  let rz := midpoint rl z0 in
  ∃ model_wave mflux,
    create_model (bands3 (Fin <$> b) (Fin <$> r) (Fin <$> z))
      (bands3 fb fr fz)
    = Ok (Fin <$> model_wave, mflux) ∧
    increasing model_wave ∧ NoDup model_wave ∧
    length model_wave
    = length (filter (λ x, x < br)%Qc b) +
      length (filter (λ x, br <= x ∧ x < rz)%Qc r) +
      length (filter (λ x, rz <= x)%Qc z).
Proof.
  intros Hb Hr0 Hrl Hz Sb Sr Sz Ib Ir Iz Hlast Hfirst br rz.
  eexists _, _. split; [by eapply create_model_ok|].
  fold br rz.
  assert (br <= rz)%Qc as Hsplit by by apply midpoint_le.
  assert (increasing (merged_grid b r z br rz)) as Hinc.
  { unfold increasing, merged_grid.
    apply StronglySorted_app. split_and!.
    - intros x y [Hx _]%list_elem_of_filter
        [[[Hy1 Hy2] _]%list_elem_of_filter|[Hy _]%list_elem_of_filter]
          %elem_of_app.
      + by eapply Qclt_le_trans.
      + eapply Qclt_le_trans; [done|]. by eapply Qcle_trans.
    - by apply StronglySorted_filter.
    - apply StronglySorted_app. split_and!.
      + intros x y [[_ Hx] _]%list_elem_of_filter
          [Hy _]%list_elem_of_filter.
        by eapply Qclt_le_trans.
      + by apply StronglySorted_filter.
      + by apply StronglySorted_filter. }
  split_and!; [done| |].
  - by eapply (StronglySorted_NoDup Qclt).
  - unfold merged_grid. rewrite !length_app. lia.
Qed.

Lemma stitch_grid_increasing_witness :
  (last grid_b = Some (zq 3) ∧ head grid_r = Some (zq 5) ∧
   last grid_r = Some (zq 8) ∧ head grid_z = Some (zq 10) ∧
   has_shape2 1 (length grid_b) mflux_b ∧
   has_shape2 1 (length grid_r) mflux_r ∧
   has_shape2 1 (length grid_z) mflux_z ∧
   increasing grid_b ∧ increasing grid_r ∧ increasing grid_z ∧
   (zq 3 <= zq 8)%Qc ∧ (zq 5 <= zq 10)%Qc) ∧
  ∃ model_wave mflux,
    create_model (bands3 (Fin <$> grid_b) (Fin <$> grid_r) (Fin <$> grid_z))
      (bands3 mflux_b mflux_r mflux_z)
    = Ok (Fin <$> model_wave, mflux) ∧
    increasing model_wave ∧ NoDup model_wave ∧
    length model_wave
    = length (filter (λ x, x < midpoint (zq 3) (zq 5))%Qc grid_b) +
      length (filter (λ x, midpoint (zq 3) (zq 5) <= x ∧
                           x < midpoint (zq 8) (zq 10))%Qc grid_r) +
      length (filter (λ x, midpoint (zq 8) (zq 10) <= x)%Qc grid_z).
Proof.
  assert (last grid_b = Some (zq 3) ∧ head grid_r = Some (zq 5) ∧
          last grid_r = Some (zq 8) ∧ head grid_z = Some (zq 10) ∧
          has_shape2 1 (length grid_b) mflux_b ∧
          has_shape2 1 (length grid_r) mflux_r ∧
          has_shape2 1 (length grid_z) mflux_z ∧
          increasing grid_b ∧ increasing grid_r ∧ increasing grid_z ∧
          (zq 3 <= zq 8)%Qc ∧ (zq 5 <= zq 10)%Qc) as H.
  { split_and!; try reflexivity; try (split; repeat constructor);
      try (unfold increasing; compute_done); by vm_compute. }
  split; [exact H|].
  destruct H as (H1 & H2 & H3 & H4 & H5 & H6 & H7 & H8 & H9 & H10 &
                 H11 & H12).
  exact (stitch_grid_increasing grid_b grid_r grid_z
           (zq 3) (zq 5) (zq 8) (zq 10) mflux_b mflux_r mflux_z 1
           H1 H2 H3 H4 H5 H6 H7 H8 H9 H10 H11 H12).
Defined.

End StitchTheorems.
